(** * Bear notes MCP server: the data access layer of [src/bear.ts]

    A shallow embedding of the write path (callback URLs handed to the
    platform's [open] command), of the read path (SQL queries against
    Bear's SQLite store) and of the tool handlers of [src/server.ts] that
    compose them, followed by the properties the specification states
    about them.

    Conventions of the embedding:
    - a JavaScript string is a [string], read as its UTF-8 bytes; a
      lone surrogate, which has no UTF-8 bytes, is the three bytes
      ED A0..BF 80..BF of generalized UTF-8, and [well_formed] tells the
      strings without one;
    - an optional argument ([tags?: string[]], [term?: string]) is an
      [option]; JavaScript truthiness is written out where the code
      tests it ([if (tag)], [tags?.length]);
    - asynchronous functions are sequenced by the bind of the [IO] monad
      below, which threads the trace of effects (URLs opened, log lines)
      and propagates thrown values;
    - a table of the store is the list of its rows, in scan order. *)

From Stdlib Require Import ZArith Ascii String.
From stdpp Require Import base decidable option list strings sorting gmap.

Local Open Scope Z_scope.

(** ** JavaScript values shared by both paths *)

(** The values that the code throws or receives as a rejection. The
    classes [BearError] and [DatabaseError] store nothing but their
    message and the optional [cause]. *)
#[warnings="-register-all"]
Inductive JsError : Type :=
  | SystemError (message : string)
  | TypeError (message : string)
  | BearError (message : string) (cause : option JsError)
  | DatabaseError (message : string) (cause : option JsError).

Definition error_message (e : JsError) : string :=
  match e with
  | SystemError m | TypeError m | BearError m _ | DatabaseError m _ => m
  end.

Definition error_cause (e : JsError) : option JsError :=
  match e with
  | BearError _ c | DatabaseError _ c => c
  | _ => None
  end.

Definition LF : string := String "010"%char "".

(** [Array.prototype.join]. *)
Definition join (sep : string) (parts : list string) : string :=
  String.concat sep parts.

(** ** logger.ts *)

Inductive LogLevel : Type := debug | info | warn | error.

Definition LOG_LEVEL_PRIORITY (level : LogLevel) : nat :=
  match level with debug => 0 | info => 1 | warn => 2 | error => 3 end%nat.

Definition getLogLevel (env : option string) : LogLevel :=
  match env with
  | Some "debug" => debug
  | Some "info" => info
  | Some "warn" => warn
  | Some "error" => error
  | _ => info
  end.

Definition shouldLog (MIN_LEVEL level : LogLevel) : bool :=
  bool_decide (LOG_LEVEL_PRIORITY MIN_LEVEL ≤ LOG_LEVEL_PRIORITY level)%nat.

(** ** The store, as the read path sees it

    Column names are those of the queries. Every column is taken to hold
    a value (no NULL), and the flags are the integers SQLite stores. The
    two timestamp columns are REAL in the store, seconds since the Core
    Data epoch in binary floating point; they are whole seconds here, and
    what the queries do with a fraction of a second is not modelled. *)

Module ZSFNOTE.
Record t : Type := mk {
  Z_PK : Z;
  ZUNIQUEIDENTIFIER : string;
  ZTITLE : string;
  ZTEXT : string;
  ZCREATIONDATE : Z;
  ZMODIFICATIONDATE : Z;
  ZTRASHED : Z;
  ZARCHIVED : Z
}.
End ZSFNOTE.

Module ZSFNOTETAG.
Record t : Type := mk { Z_PK : Z; ZTITLE : string }.
End ZSFNOTETAG.

Module Z_5TAGS.
Record t : Type := mk { Z_5NOTES : Z; Z_13TAGS : Z }.
End Z_5TAGS.

(** [fault] is the failure, if any, that the SQLite driver raises when a
    statement is prepared or run on this handle. *)
Record Database : Type := {
  notes : list ZSFNOTE.t;
  tags : list ZSFNOTETAG.t;
  note_tags : list Z_5TAGS.t;
  fault : option JsError
}.

(** ** The environment and the effect monad *)

(** [execFileOpen url] is the outcome of [execFileAsync("open", [url])]:
    [None] when the command exits normally, the rejection otherwise.
    [database] is the outcome of database.ts's [getDatabase()]: the
    shared read-only handle, or the [DatabaseError] it throws when no
    candidate path exists or the file cannot be opened. The lines that
    the first connection logs are not part of the trace. *)
Record Env : Type := {
  BEAR_MCP_LOG_LEVEL : option string;
  execFileOpen : string → option JsError;
  database : JsError + Database
}.

(** The observable effects: [ExecOpen url] is one run of the [open]
    command on [url] (whether or not it succeeds), [Logged] one line
    written by the logger. *)
Inductive Event : Type :=
  | ExecOpen (url : string)
  | Logged (level : LogLevel) (message : string).

Inductive Outcome (A : Type) : Type :=
  | Returned (a : A)
  | Threw (e : JsError).
Arguments Returned {A} a.
Arguments Threw {A} e.

Definition IO (A : Type) : Type := list Event → Outcome A * list Event.

Definition ret {A} (a : A) : IO A := λ tr, (Returned a, tr).
Definition throw {A} (e : JsError) : IO A := λ tr, (Threw e, tr).
Definition bind {A B} (m : IO A) (k : A → IO B) : IO B :=
  λ tr, match m tr with
        | (Returned a, tr') => k a tr'
        | (Threw e, tr') => (Threw e, tr')
        end.
Definition try_catch {A} (m : IO A) (handler : JsError → IO A) : IO A :=
  λ tr, match m tr with
        | (Returned a, tr') => (Returned a, tr')
        | (Threw e, tr') => handler e tr'
        end.
Definition emit (ev : Event) : IO unit := λ tr, (Returned tt, tr ++ [ev]).

#[export] Instance IO_ret : MRet IO := @ret.
#[export] Instance IO_bind : MBind IO := λ A B k m, bind m k.

(** A call of [logger.<level>(message, data)]: one line on stderr when
    the level passes the threshold. The timestamp and the serialized
    [data] of the line are not part of the trace. *)
Definition logger (env : Env) (level : LogLevel) (message : string) : IO unit :=
  if shouldLog (getLogLevel (BEAR_MCP_LOG_LEVEL env)) level
  then emit (Logged level message)
  else ret tt.

(** ** Write path (bear.ts, lines 34-88) *)

Definition hex_digit (n : N) : ascii :=
  match n with
  | 0 => "0" | 1 => "1" | 2 => "2" | 3 => "3" | 4 => "4" | 5 => "5"
  | 6 => "6" | 7 => "7" | 8 => "8" | 9 => "9" | 10 => "A" | 11 => "B"
  | 12 => "C" | 13 => "D" | 14 => "E" | _ => "F"
  end%N%char.

Definition between (lo hi c : ascii) : bool :=
  (N_of_ascii lo <=? N_of_ascii c)%N && (N_of_ascii c <=? N_of_ascii hi)%N.

(** The characters [encodeURIComponent] leaves alone:
    A-Z a-z 0-9 - _ . ! ~ * ' ( ) *)
Definition uri_unreserved (c : ascii) : bool :=
  between "A" "Z" c || between "a" "z" c || between "0" "9" c ||
  bool_decide (c ∈ ["-"; "_"; "."; "!"; "~"; "*"; "'"; "("; ")"]%char).

Definition percent_encode (c : ascii) : string :=
  String "%" (String (hex_digit (N_of_ascii c / 16))
             (String (hex_digit (N_of_ascii c mod 16)) "")).

(** [encodeURIComponent] on the UTF-8 bytes of a well-formed string. On
    a string with a lone surrogate the builtin throws a URIError, which
    this function does not: what depends on it is stated for
    [well_formed] strings. *)
Fixpoint encodeURIComponent (s : string) : string :=
  match s with
  | "" => ""
  | String c rest =>
      (if uri_unreserved c then String c "" else percent_encode c)
      +:+ encodeURIComponent rest
  end.

(** The parameter object of an action, as [Object.entries] lists it. *)
Definition Params : Type := list (string * string).

Definition bearUrl (action : string) (params : Params) : string :=
  let encodedParams :=
    join "&" (map (λ kv, kv.1 +:+ "=" +:+ encodeURIComponent kv.2) params) in
  "bear://x-callback-url/" +:+ action +:+ "?" +:+ encodedParams.

Definition execFileAsync_open (env : Env) (url : string) : IO unit :=
  emit (ExecOpen url);;
  match execFileOpen env url with
  | None => ret tt
  | Some rejection => throw rejection
  end.

Definition callBearUrl (env : Env) (action : string) (params : Params) : IO unit :=
  let url := bearUrl action params in
  try_catch
    (execFileAsync_open env url;;
     logger env debug "Called Bear URL")
    (λ cause,
       logger env error "Bear URL call failed";;
       throw (BearError ("Failed to call Bear action: " +:+ action) (Some cause))).

(** [tags.map(t => `#${t}`).join(" ")] *)
Definition hashtags (tags : list string) : string :=
  join " " (map (λ t, "#" +:+ t) tags).

Definition createNote (env : Env) (title text : string)
    (tags : option (list string)) : IO unit :=
  let fullText :=
    match tags with
    | Some ((_ :: _) as tags) => hashtags tags +:+ LF +:+ LF
    | _ => ""
    end in
  let fullText := fullText +:+ text in
  callBearUrl env "create" [("title", title); ("text", fullText)];;
  logger env info "Created note".

Definition appendToNote (env : Env) (noteId text : string) : IO unit :=
  callBearUrl env "add-text" [("id", noteId); ("text", text); ("mode", "append")];;
  logger env info "Appended to note".

(** What reaches the [tags] parameter of [replaceNoteContent] at run
    time. It is declared [tags?: string[]], but the handler of
    [bear_replace_content] calls [replaceNoteContent(noteId, title, text,
    tags)]: four positional arguments for three parameters, so that [text]
    receives the title, [tags] receives the body string and the tag array
    is dropped. Parameter types are erased at run time. *)
Inductive JsTags : Type :=
  | TagsUndefined
  | TagsArray (items : list string)
  | TagsString (s : string).

(** [tags?.length] is falsy for [undefined], for an empty array and for
    an empty string; [tags.map] exists on arrays only, and calling it on
    a string throws a TypeError (whose wording is the engine's). *)
Definition replaceNoteContent (env : Env) (noteId text : string)
    (tags : JsTags) : IO unit :=
  fullText ← match tags with
             | TagsUndefined | TagsArray [] | TagsString "" => mret ""
             | TagsArray items => mret (hashtags items +:+ LF +:+ LF)
             | TagsString _ => throw (TypeError "tags.map is not a function")
             end;
  let fullText := fullText +:+ text in
  callBearUrl env "add-text"
    [("id", noteId); ("text", fullText); ("mode", "replace_all")];;
  logger env info "Replaced note content".

Definition trashNote (env : Env) (noteId : string) : IO unit :=
  callBearUrl env "trash" [("id", noteId)];;
  logger env info "Trashed note".

Definition archiveNote (env : Env) (noteId : string) : IO unit :=
  callBearUrl env "archive" [("id", noteId)];;
  logger env info "Archived note".

Definition unarchiveNote (env : Env) (noteId : string) : IO unit :=
  callBearUrl env "unarchive" [("id", noteId)];;
  logger env info "Unarchived note".

(** ** SQLite functions used by the queries *)

(** ASCII case folding: SQLite's [LIKE] and [LOWER] fold the 26 ASCII
    letters only. *)
Definition lower_ascii (c : ascii) : ascii :=
  if between "A" "Z" c then ascii_of_N (N_of_ascii c + 32) else c.

Definition chars (s : string) : list ascii := String.list_ascii_of_string s.

Definition LOWER (s : string) : string :=
  String.string_of_list_ascii (map lower_ascii (chars s)).

(** [s LIKE pattern] without ESCAPE clause: [%] matches any run of
    characters, [_] any single one, every other character itself up to
    ASCII case. On UTF-8 bytes this is SQLite's matcher whenever [_] does
    not face a multi-byte character. *)
Fixpoint like_chars (pattern s : list ascii) : bool :=
  match pattern with
  | [] => match s with [] => true | _ => false end
  | p :: pattern' =>
      if decide (p = "%"%char) then
        (fix skip (s : list ascii) : bool :=
           like_chars pattern' s ||
           match s with [] => false | _ :: s' => skip s' end) s
      else
        match s with
        | [] => false
        | c :: s' =>
            (bool_decide (p = "_"%char) ||
             bool_decide (lower_ascii p = lower_ascii c)) &&
            like_chars pattern' s'
        end
  end.

Definition LIKE (s pattern : string) : bool :=
  like_chars (chars pattern) (chars s).

(** Days since 1970-01-01 to a date of the proleptic Gregorian calendar. *)
Definition civil_from_days (days : Z) : Z * Z * Z :=
  let z := days + 719468 in
  let era := z / 146097 in
  let doe := z - era * 146097 in
  let yoe := (doe - doe / 1460 + doe / 36524 - doe / 146096) / 365 in
  let doy := doe - (365 * yoe + yoe / 4 - yoe / 100) in
  let mp := (5 * doy + 2) / 153 in
  let d := doy - (153 * mp + 2) / 5 + 1 in
  let m := if mp <? 10 then mp + 3 else mp - 9 in
  let y := yoe + era * 400 + (if m <=? 2 then 1 else 0) in
  (y, m, d).

Definition digit (n : Z) : ascii := ascii_of_N (48 + Z.to_N (n mod 10)).

Definition pad2 (n : Z) : string :=
  String (digit (n / 10)) (String (digit n) "").

Definition pad4 (n : Z) : string := pad2 (n / 100) +:+ pad2 n.

(** [datetime(seconds, 'unixepoch')] for a whole number of seconds: the
    text [YYYY-MM-DD HH:MM:SS] of the Unix time [seconds] in UTC. SQLite
    answers from -4713-11-24 12:00:00 (Julian day 0) to 9999-12-31
    23:59:59, with a [-] before the four digits of a year before 0000,
    and with NULL (here [None]) outside. *)
Definition datetime_unixepoch (seconds : Z) : option string :=
  let '(y, m, d) := civil_from_days (seconds / 86400) in
  let sod := seconds mod 86400 in
  if (-210866760000 <=? seconds) && (seconds <=? 253402300799) then
    Some ((if y <? 0 then "-" +:+ pad4 (- y) else pad4 y) +:+ "-" +:+
          pad2 m +:+ "-" +:+ pad2 d +:+ " " +:+
          pad2 (sod / 3600) +:+ ":" +:+ pad2 (sod / 60 mod 60) +:+ ":" +:+
          pad2 (sod mod 60))
  else None.

(** Seconds from the Unix epoch to the Core Data epoch (2001-01-01). *)
Definition CORE_DATA_EPOCH_OFFSET : Z := 978307200.

(** ** Read path (bear.ts, lines 94-316) *)

Module Note.
(** The interface [Note]; an absent or [undefined] field is [None]. *)
Record t : Type := mk {
  id : string;
  title : string;
  content : option string;
  tags : option (list string);
  createdAt : option string;
  modifiedAt : option string;
  isTrashed : option bool
}.
End Note.

Module Tag.
Record t : Type := mk { name : string; noteCount : nat }.
End Tag.

Module Row.
(** A row of a notes query as the driver returns it: [content] and
    [isTrashed] are [None] when the query does not select them,
    [isTrashed] is still the stored integer. *)
Record t : Type := mk {
  id : string;
  title : string;
  content : option string;
  createdAt : option string;
  modifiedAt : option string;
  isTrashed : option Z
}.
End Row.

#[export] Instance Row_eq_dec : EqDecision Row.t.
Proof. solve_decision. Defined.

Definition getDatabase (env : Env) : IO Database :=
  match database env with
  | inl e => throw e
  | inr db => mret db
  end.

(** [db.prepare(query).all(...)] and [.get(...)]: the rows the query
    selects, unless the driver fails. *)
Definition all {A} (db : Database) (query : Database → list A) : IO (list A) :=
  match fault db with
  | Some e => throw e
  | None => mret (query db)
  end.

Definition get {A} (db : Database) (query : Database → list A) : IO (option A) :=
  rows ← all db query; mret (head rows).

(** The SELECT list of the notes queries; the two flags say whether
    [ZTEXT as content] and [ZTRASHED as isTrashed] are in it. *)
Definition columns (with_content with_isTrashed : bool) (n : ZSFNOTE.t) : Row.t :=
  {| Row.id := ZSFNOTE.ZUNIQUEIDENTIFIER n;
     Row.title := ZSFNOTE.ZTITLE n;
     Row.content := if with_content then Some (ZSFNOTE.ZTEXT n) else None;
     Row.createdAt :=
       datetime_unixepoch (ZSFNOTE.ZCREATIONDATE n + 978307200);
     Row.modifiedAt :=
       datetime_unixepoch (ZSFNOTE.ZMODIFICATIONDATE n + 978307200);
     Row.isTrashed := if with_isTrashed then Some (ZSFNOTE.ZTRASHED n) else None |}.

(** SELECT DISTINCT: a source row is dropped when an earlier one has
    the same selected columns. *)
Fixpoint DISTINCT {A K} `{EqDecision K} (select : A → K) (seen : list K)
    (rows : list A) : list A :=
  match rows with
  | [] => []
  | r :: rows' =>
      if decide (select r ∈ seen) then DISTINCT select seen rows'
      else r :: DISTINCT select (select r :: seen) rows'
  end.

Definition modified_desc (a b : ZSFNOTE.t) : Prop :=
  ZSFNOTE.ZMODIFICATIONDATE b ≤ ZSFNOTE.ZMODIFICATIONDATE a.

#[export] Instance modified_desc_dec : RelDecision modified_desc.
Proof. intros a b. unfold modified_desc. apply _. Defined.

#[export] Instance modified_desc_trans : Transitive modified_desc.
Proof. intros a b c. unfold modified_desc. lia. Qed.

#[export] Instance modified_desc_total : Total modified_desc.
Proof. intros a b. unfold modified_desc. lia. Qed.

Definition ORDER_BY_ZMODIFICATIONDATE_DESC : list ZSFNOTE.t → list ZSFNOTE.t :=
  merge_sort modified_desc.

Definition LIMIT {A} (n : nat) (rows : list A) : list A := take n rows.

Definition live (n : ZSFNOTE.t) : Prop :=
  ZSFNOTE.ZTRASHED n = 0 ∧ ZSFNOTE.ZARCHIVED n = 0.

#[export] Instance live_dec n : Decision (live n).
Proof. unfold live. apply _. Defined.

(** The source rows behind the three queries of [searchNotes], after
    DISTINCT, ORDER BY and LIMIT and before the SELECT list is applied. *)
Definition search_by_tag_source (pattern : string) (db : Database) : list ZSFNOTE.t :=
  LIMIT 100 (ORDER_BY_ZMODIFICATIONDATE_DESC (DISTINCT (columns true true) []
    (n ← notes db; nt ← note_tags db; t ← tags db;
     if decide (ZSFNOTE.Z_PK n = Z_5TAGS.Z_5NOTES nt ∧
                Z_5TAGS.Z_13TAGS nt = ZSFNOTETAG.Z_PK t ∧
                LIKE (ZSFNOTETAG.ZTITLE t) pattern ∧
                live n)
     then [n] else []))).

Definition search_by_text_source (pattern1 pattern2 : string) (db : Database)
    : list ZSFNOTE.t :=
  LIMIT 100 (ORDER_BY_ZMODIFICATIONDATE_DESC
    (filter (λ n, (LIKE (ZSFNOTE.ZTITLE n) pattern1 ∨
                   LIKE (ZSFNOTE.ZTEXT n) pattern2) ∧ live n)
            (notes db))).

Definition recent_notes_source (db : Database) : list ZSFNOTE.t :=
  LIMIT 50 (ORDER_BY_ZMODIFICATIONDATE_DESC (filter live (notes db))).

Definition name_asc (a b : string * string) : Prop := (a.2 ≤ b.2)%string.

#[export] Instance name_asc_dec : RelDecision name_asc.
Proof. intros a b. unfold name_asc. apply _. Defined.

(** The rows [(noteId, name)] of the query of [getNoteTagsBatch]. *)
Definition note_tag_rows (noteIds : list string) (db : Database)
    : list (string * string) :=
  merge_sort name_asc
    (t ← tags db; nt ← note_tags db; n ← notes db;
     if decide (ZSFNOTETAG.Z_PK t = Z_5TAGS.Z_13TAGS nt ∧
                Z_5TAGS.Z_5NOTES nt = ZSFNOTE.Z_PK n ∧
                ZSFNOTE.ZUNIQUEIDENTIFIER n ∈ noteIds)
     then [(ZSFNOTE.ZUNIQUEIDENTIFIER n, ZSFNOTETAG.ZTITLE t)] else []).

(** One turn of the grouping loop:
    [if (!result[row.noteId]) result[row.noteId] = [];
     result[row.noteId].push(row.name)].
    Identifiers are Bear's UUIDs; the inherited properties of a
    JavaScript object are not keys of the map. For an identifier that
    names one ([constructor], [toString], ...) the test finds the
    inherited value and [push] throws: [plain_identifier] tells the
    others. *)
Definition push_tag (result : gmap string (list string)) (row : string * string)
    : gmap string (list string) :=
  <[row.1 := default [] (result !! row.1) ++ [row.2]]> result.

Definition getNoteTagsBatch (env : Env) (noteIds : list string)
    : IO (gmap string (list string)) :=
  match noteIds with
  | [] => mret ∅
  | _ =>
      db ← getDatabase env;
      rows ← all db (note_tag_rows noteIds);
      mret (foldl push_tag ∅ rows)
  end.

Definition getNoteTags (env : Env) (noteId : string) : IO (list string) :=
  batch ← getNoteTagsBatch env [noteId];
  mret (default [] (batch !! noteId)).

(** [Boolean(note.isTrashed)] *)
Definition Boolean (v : option Z) : bool :=
  match v with
  | Some z => bool_decide (z ≠ 0)
  | None => false
  end.

(** [{...note, isTrashed: Boolean(note.isTrashed),
      tags: tagsByNote[note.id] ?? [], content: undefined}] *)
Definition search_result (tagsByNote : gmap string (list string)) (note : Row.t)
    : Note.t :=
  {| Note.id := Row.id note;
     Note.title := Row.title note;
     Note.createdAt := Row.createdAt note;
     Note.modifiedAt := Row.modifiedAt note;
     Note.isTrashed := Some (Boolean (Row.isTrashed note));
     Note.tags := Some (default [] (tagsByNote !! Row.id note));
     Note.content := None |}.

Definition searchNotes (env : Env) (term tag : option string) : IO (list Note.t) :=
  db ← getDatabase env;
  try_catch
    (let query :=
       match tag, term with
       | Some (String _ _ as tag), _ =>
           λ db, columns true true <$> search_by_tag_source ("%" +:+ tag +:+ "%") db
       | _, Some (String _ _ as term) =>
           λ db, columns true true <$>
                 search_by_text_source ("%" +:+ term +:+ "%") ("%" +:+ term +:+ "%") db
       | _, _ =>
           λ db, columns false true <$> recent_notes_source db
       end in
     rows ← all db query;
     tagsByNote ← getNoteTagsBatch env (Row.id <$> rows);
     mret (search_result tagsByNote <$> rows))
    (λ cause,
       logger env error "Search failed";;
       throw (DatabaseError "Failed to search notes" (Some cause))).

Definition getNoteContent (env : Env) (noteId : string) : IO (option Note.t) :=
  db ← getDatabase env;
  try_catch
    (note ← get db (λ db,
        columns true true <$>
        filter (λ n, ZSFNOTE.ZUNIQUEIDENTIFIER n = noteId) (notes db));
     match note with
     | None => mret None
     | Some note =>
         tags ← getNoteTags env noteId;
         mret (Some {| Note.id := Row.id note;
                       Note.title := Row.title note;
                       Note.content := Row.content note;
                       Note.createdAt := Row.createdAt note;
                       Note.modifiedAt := Row.modifiedAt note;
                       Note.isTrashed := Some (Boolean (Row.isTrashed note));
                       Note.tags := Some tags |})
     end)
    (λ cause,
       logger env error "Failed to get note";;
       throw (DatabaseError "Failed to get note content" (Some cause))).

Definition list_by_tag_source (tag : string) (db : Database) : list ZSFNOTE.t :=
  LIMIT 100 (ORDER_BY_ZMODIFICATIONDATE_DESC (DISTINCT (columns false false) []
    (n ← notes db; nt ← note_tags db; t ← tags db;
     if decide (ZSFNOTE.Z_PK n = Z_5TAGS.Z_5NOTES nt ∧
                Z_5TAGS.Z_13TAGS nt = ZSFNOTETAG.Z_PK t ∧
                LOWER (ZSFNOTETAG.ZTITLE t) = LOWER tag ∧
                live n)
     then [n] else []))).

(** [rows.map(note => ({...note, tags: tagsByNote[note.id] ?? []}))] of
    the two listings. The spread copies the columns of the row as they
    are; the queries of the listings select neither [content] nor
    [isTrashed], so both stay absent. *)
Definition with_tags (tagsByNote : gmap string (list string)) (note : Row.t)
    : Note.t :=
  {| Note.id := Row.id note;
     Note.title := Row.title note;
     Note.content := Row.content note;
     Note.createdAt := Row.createdAt note;
     Note.modifiedAt := Row.modifiedAt note;
     Note.isTrashed := (λ z, bool_decide (z ≠ 0)) <$> Row.isTrashed note;
     Note.tags := Some (default [] (tagsByNote !! Row.id note)) |}.

Definition listNotesByTag (env : Env) (tag : string) : IO (list Note.t) :=
  db ← getDatabase env;
  try_catch
    (rows ← all db (λ db, columns false false <$> list_by_tag_source tag db);
     tagsByNote ← getNoteTagsBatch env (Row.id <$> rows);
     mret (with_tags tagsByNote <$> rows))
    (λ cause,
       logger env error "Failed to list notes by tag";;
       throw (DatabaseError "Failed to list notes by tag" (Some cause))).

(** [LEFT JOIN rows ON on]: the matching rows, or one NULL row. *)
Definition LEFT_JOIN {A} (rows : list A) (on : A → Prop)
    `{∀ r, Decision (on r)} : list (option A) :=
  match filter on rows with
  | [] => [None]
  | matching => Some <$> matching
  end.

(** The joined rows of [getAllTags]: a tag with each note linked to it,
    or with NULL in their place. *)
Definition tag_note_rows (db : Database) : list (ZSFNOTETAG.t * option ZSFNOTE.t) :=
  t ← tags db;
  nt ← LEFT_JOIN (note_tags db) (λ nt, ZSFNOTETAG.Z_PK t = Z_5TAGS.Z_13TAGS nt);
  n ← match nt with
      | Some nt => LEFT_JOIN (notes db) (λ n, Z_5TAGS.Z_5NOTES nt = ZSFNOTE.Z_PK n)
      | None => [None]
      end;
  [(t, n)].

(** [CASE WHEN n.ZTRASHED = 0 AND n.ZARCHIVED = 0 THEN n.Z_PK END] *)
Definition live_pk (n : option ZSFNOTE.t) : option Z :=
  match n with
  | Some n => if decide (live n) then Some (ZSFNOTE.Z_PK n) else None
  | None => None
  end.

(** [COUNT(DISTINCT e)] over the rows of one group: NULLs do not count. *)
Definition COUNT_DISTINCT {A} `{EqDecision A} (values : list (option A)) : nat :=
  length (remove_dups (omap id values)).

Definition tag_name_asc (a b : Tag.t) : Prop := (Tag.name a ≤ Tag.name b)%string.

#[export] Instance tag_name_asc_dec : RelDecision tag_name_asc.
Proof. intros a b. unfold tag_name_asc. apply _. Defined.

#[export] Instance tag_name_asc_trans : Transitive tag_name_asc.
Proof. intros a b c. unfold tag_name_asc. apply transitivity. Qed.

#[export] Instance tag_name_asc_total : Total tag_name_asc.
Proof. intros a b. unfold tag_name_asc. apply total, _. Qed.

Definition all_tags_query (db : Database) : list Tag.t :=
  let joined := tag_note_rows db in
  let groups := remove_dups ((λ r, ZSFNOTETAG.ZTITLE r.1) <$> joined) in
  let counted :=
    (λ name,
       {| Tag.name := name;
          Tag.noteCount :=
            COUNT_DISTINCT
              ((λ r, live_pk r.2) <$>
               filter (λ r, ZSFNOTETAG.ZTITLE r.1 = name) joined) |})
    <$> groups in
  merge_sort tag_name_asc (filter (λ g, 0 < Tag.noteCount g)%nat counted).

Definition getAllTags (env : Env) : IO (list Tag.t) :=
  db ← getDatabase env;
  try_catch
    (all db all_tags_query)
    (λ cause,
       logger env error "Failed to get tags";;
       throw (DatabaseError "Failed to get tags" (Some cause))).

Definition archived_source (db : Database) : list ZSFNOTE.t :=
  LIMIT 100 (ORDER_BY_ZMODIFICATIONDATE_DESC
    (filter (λ n, ZSFNOTE.ZARCHIVED n = 1 ∧ ZSFNOTE.ZTRASHED n = 0) (notes db))).

Definition listArchivedNotes (env : Env) : IO (list Note.t) :=
  db ← getDatabase env;
  try_catch
    (rows ← all db (λ db, columns false false <$> archived_source db);
     tagsByNote ← getNoteTagsBatch env (Row.id <$> rows);
     mret (with_tags tagsByNote <$> rows))
    (λ cause,
       logger env error "Failed to list archived notes";;
       throw (DatabaseError "Failed to list archived notes" (Some cause))).

(** ** Tool handlers (server.ts) *)

(** The text of a result item. [JSON.stringify(value, null, 2)] is kept
    as the value it serializes. *)
Inductive TextPayload : Type :=
  | Text (s : string)
  | JsonNotes (notes : list Note.t)
  | JsonNote (note : Note.t)
  | JsonTags (tags : list Tag.t)
  | JsonByTag (tag : string) (count : nat) (notes : list Note.t)
  | JsonArchived (count : nat) (notes : list Note.t).

Record ToolResult : Type := {
  content : list TextPayload;
  isError : bool
}.

Definition handleError (env : Env) (e : JsError) : IO ToolResult :=
  let message := error_message e in
  logger env error "Tool execution failed";;
  mret {| content := [Text ("Error: " +:+ message)]; isError := true |}.

Definition success (payload : TextPayload) : ToolResult :=
  {| content := [payload]; isError := false |}.

Definition bear_create_note (env : Env) (title text : string)
    (tags : option (list string)) : IO ToolResult :=
  try_catch
    (createNote env title text tags;;
     mret (success (Text ("Created note: " +:+ title))))
    (handleError env).

Definition bear_search (env : Env) (term tag : option string) : IO ToolResult :=
  try_catch
    (notes ← searchNotes env term tag;
     mret (success (JsonNotes notes)))
    (handleError env).

Definition bear_get_note (env : Env) (noteId : string) : IO ToolResult :=
  try_catch
    (note ← getNoteContent env noteId;
     match note with
     | None =>
         mret {| content := [Text ("Note not found: " +:+ noteId)];
                 isError := true |}
     | Some note => mret (success (JsonNote note))
     end)
    (handleError env).

(** [replaceNoteContent(noteId, title, text, tags)]: the fourth argument
    has no parameter to receive it. *)
Definition bear_replace_content (env : Env) (noteId title text : string)
    (tags : option (list string)) : IO ToolResult :=
  try_catch
    (replaceNoteContent env noteId title (TagsString text);;
     mret (success (Text ("Replaced content of note: " +:+ noteId))))
    (handleError env).

Definition bear_list_tags (env : Env) : IO ToolResult :=
  try_catch
    (tags ← getAllTags env;
     mret (success (JsonTags tags)))
    (handleError env).

Definition bear_list_by_tag (env : Env) (tag : string) : IO ToolResult :=
  try_catch
    (notes ← listNotesByTag env tag;
     mret (success (JsonByTag tag (length notes) notes)))
    (handleError env).

Definition bear_list_archived (env : Env) : IO ToolResult :=
  try_catch
    (notes ← listArchivedNotes env;
     mret (success (JsonArchived (length notes) notes)))
    (handleError env).

(** ** Definitions used to state the properties *)

(** Follows the usual definition of Unix time: the number of days from
    1970-01-01 to a date of the proleptic Gregorian calendar, and the
    number of seconds from 1970-01-01 00:00:00 UTC to a civil time. *)
Definition days_from_civil (y m d : Z) : Z :=
  let y := if m <=? 2 then y - 1 else y in
  let era := y / 400 in
  let yoe := y - era * 400 in
  let doy := (153 * (if 2 <? m then m - 3 else m + 9) + 2) / 5 + d - 1 in
  let doe := yoe * 365 + yoe / 4 - yoe / 100 + doy in
  era * 146097 + doe - 719468.

Definition unix_seconds (y m d hh mm ss : Z) : Z :=
  days_from_civil y m d * 86400 + hh * 3600 + mm * 60 + ss.

Definition days_in_month (y m : Z) : Z :=
  if m =? 2 then
    if (y mod 4 =? 0) && (negb (y mod 100 =? 0) || (y mod 400 =? 0))
    then 29 else 28
  else if (m =? 4) || (m =? 6) || (m =? 9) || (m =? 11) then 30 else 31.

(** [needle] occurs in [s] up to ASCII case. *)
Definition contains_ci (needle s : string) : Prop :=
  ∃ before after : list ascii,
    lower_ascii <$> chars s =
    before ++ (lower_ascii <$> chars needle) ++ after.

(** The characters [LIKE] gives a meaning of their own. *)
Definition like_wildcard (c : ascii) : Prop := c = "%"%char ∨ c = "_"%char.

Definition wildcard_free (s : string) : Prop :=
  Forall (λ c, ¬ like_wildcard c) (chars s).

(** The tag names that [tagsByNote[noteId] ?? []] yields. *)
Definition resolved_tags (db : Database) (noteIds : list string) (noteId : string)
    : list string :=
  default [] (foldl push_tag ∅ (note_tag_rows noteIds db) !! noteId).

(** The rows of the query that [searchNotes] selects for its arguments. *)
Definition search_rows (term tag : option string) (db : Database) : list Row.t :=
  match tag, term with
  | Some (String _ _ as tag), _ =>
      columns true true <$> search_by_tag_source ("%" +:+ tag +:+ "%") db
  | _, Some (String _ _ as term) =>
      columns true true <$>
      search_by_text_source ("%" +:+ term +:+ "%") ("%" +:+ term +:+ "%") db
  | _, _ => columns false true <$> recent_notes_source db
  end.

(** [note] is the outward view of the store row [n]: same identifier
    and title, both timestamps converted. *)
Definition shows (note : Note.t) (n : ZSFNOTE.t) : Prop :=
  Note.id note = ZSFNOTE.ZUNIQUEIDENTIFIER n ∧
  Note.title note = ZSFNOTE.ZTITLE n ∧
  Note.createdAt note =
    datetime_unixepoch (ZSFNOTE.ZCREATIONDATE n + CORE_DATA_EPOCH_OFFSET) ∧
  Note.modifiedAt note =
    datetime_unixepoch (ZSFNOTE.ZMODIFICATIONDATE n + CORE_DATA_EPOCH_OFFSET).

Definition has_tag_containing (filter : string) (note : Note.t) : Prop :=
  ∃ names name,
    Note.tags note = Some names ∧ name ∈ names ∧ contains_ci filter name.

(** The note that [getNoteContent] builds from the store row [n]. *)
Definition fetched_note (db : Database) (noteId : string) (n : ZSFNOTE.t) : Note.t :=
  {| Note.id := ZSFNOTE.ZUNIQUEIDENTIFIER n;
     Note.title := ZSFNOTE.ZTITLE n;
     Note.content := Some (ZSFNOTE.ZTEXT n);
     Note.createdAt :=
       datetime_unixepoch (ZSFNOTE.ZCREATIONDATE n + CORE_DATA_EPOCH_OFFSET);
     Note.modifiedAt :=
       datetime_unixepoch (ZSFNOTE.ZMODIFICATIONDATE n + CORE_DATA_EPOCH_OFFSET);
     Note.isTrashed := Some (bool_decide (ZSFNOTE.ZTRASHED n ≠ 0));
     Note.tags := Some (resolved_tags db [noteId] noteId) |}.

(** Follows the words of the specification: a note bears the tag [name]
    when the join relation links it to a tag of that name. *)
Definition bears (db : Database) (name : string) (n : ZSFNOTE.t) : Prop :=
  Exists (λ t,
    ZSFNOTETAG.ZTITLE t = name ∧
    Exists (λ nt, ZSFNOTETAG.Z_PK t = Z_5TAGS.Z_13TAGS nt ∧
                  Z_5TAGS.Z_5NOTES nt = ZSFNOTE.Z_PK n) (note_tags db))
    (tags db).

#[export] Instance bears_dec db name n : Decision (bears db name n).
Proof. unfold bears. apply _. Defined.

(** Follows the words of the specification: the number of non-trashed,
    non-archived notes currently bearing the tag [name]. *)
Definition qualifying_note_count (db : Database) (name : string) : nat :=
  length (filter (λ n, live n ∧ bears db name n) (notes db)).

Definition has_tag_like (pattern : string) (note : Note.t) : Prop :=
  ∃ names name,
    Note.tags note = Some names ∧ name ∈ names ∧ LIKE name pattern.

(** SQLite refuses a LIKE pattern of more than 50000 bytes, and the
    statement fails; a filter is put between two [%]. *)
Definition within_like_limit (filter : option string) : Prop :=
  match filter with
  | Some s => Z.of_nat (length (chars s)) + 2 ≤ 50000
  | None => True
  end.

(** The property names that an object literal inherits from
    [Object.prototype]: for such a key [result[key]] is the inherited
    value, not [undefined]. *)
Definition Object_prototype_properties : list string :=
  ["constructor"; "hasOwnProperty"; "isPrototypeOf"; "propertyIsEnumerable";
   "toLocaleString"; "toString"; "valueOf"; "__proto__";
   "__defineGetter__"; "__defineSetter__";
   "__lookupGetter__"; "__lookupSetter__"].

Definition plain_identifier (noteId : string) : Prop :=
  noteId ∉ Object_prototype_properties.

#[export] Instance plain_identifier_dec noteId : Decision (plain_identifier noteId).
Proof. unfold plain_identifier. apply _. Defined.

(** The identifiers of the store are none of these names. *)
Definition plain_identifiers (db : Database) : Prop :=
  Forall (λ n, plain_identifier (ZSFNOTE.ZUNIQUEIDENTIFIER n)) (notes db).

(** A lone surrogate in the bytes of a string (see the conventions):
    the byte ED followed by a byte from A0 to BF. *)
Fixpoint has_lone_surrogate (s : string) : bool :=
  match s with
  | "" => false
  | String c rest =>
      (bool_decide (c = "237"%char) &&
       match rest with
       | String c' _ => between "160" "191" c'
       | "" => false
       end) || has_lone_surrogate rest
  end.

Definition well_formed (s : string) : Prop := has_lone_surrogate s = false.

(** The instants for which SQLite's [datetime] has a text, in seconds of
    Unix time. *)
Definition datetime_range (seconds : Z) : Prop :=
  -210866760000 ≤ seconds ≤ 253402300799.

(** ** A small store and environment, used to run the definitions *)

Definition sample_store : Database := {|
  notes :=
    [ ZSFNOTE.mk 1 "A" "Project Plan" "body a" 0 100 0 0;
      ZSFNOTE.mk 2 "B" "Old project" "b" 5 200 1 0;
      ZSFNOTE.mk 3 "C" "Groceries" "milk" 10 300 0 0;
      ZSFNOTE.mk 4 "D" "Arch" "x" 10 50 0 1;
      ZSFNOTE.mk 5 "E" "untagged" "" 1 400 0 0 ];
  tags :=
    [ ZSFNOTETAG.mk 10 "work"; ZSFNOTETAG.mk 11 "Home";
      ZSFNOTETAG.mk 12 "orphan"; ZSFNOTETAG.mk 13 "abc" ];
  note_tags :=
    [ Z_5TAGS.mk 1 10; Z_5TAGS.mk 3 10; Z_5TAGS.mk 3 11;
      Z_5TAGS.mk 2 11; Z_5TAGS.mk 4 13; Z_5TAGS.mk 1 13 ];
  fault := None
|}.

Definition sample_env : Env := {|
  BEAR_MCP_LOG_LEVEL := None;
  execFileOpen := λ _, None;
  database := inr sample_store
|}.

(** The same environment with an [open] command that fails. The
    rejection of [execFile] names the command line that failed, and so
    the URL. *)
Definition offline_env : Env := {|
  BEAR_MCP_LOG_LEVEL := None;
  execFileOpen := λ url, Some (SystemError ("Command failed: open " +:+ url));
  database := inr sample_store
|}.

(** * The rest of the code *)

(** ** The remaining write handlers (server.ts) *)

Definition bear_append (env : Env) (noteId text : string) : IO ToolResult :=
  try_catch
    (appendToNote env noteId text;;
     mret (success (Text ("Appended text to note: " +:+ noteId))))
    (handleError env).

Definition bear_trash_note (env : Env) (noteId : string) : IO ToolResult :=
  try_catch
    (trashNote env noteId;;
     mret (success (Text ("Moved note to trash: " +:+ noteId))))
    (handleError env).

Definition bear_archive_note (env : Env) (noteId : string) : IO ToolResult :=
  try_catch
    (archiveNote env noteId;;
     mret (success (Text ("Archived note: " +:+ noteId))))
    (handleError env).

Definition bear_unarchive_note (env : Env) (noteId : string) : IO ToolResult :=
  try_catch
    (unarchiveNote env noteId;;
     mret (success (Text ("Unarchived note: " +:+ noteId))))
    (handleError env).

(** ** Further definitions used to state the properties *)

Definition is_log (ev : Event) : Prop := ∃ level message, ev = Logged level message.

(** [op] runs [open] once, on the URL of [action] with [params], and
    returns or throws as that run goes; all else it does is logging. *)
Definition dispatches_once (env : Env) (op : IO unit) (action : string)
    (params : Params) : Prop :=
  ∀ tr, ∃ lines,
    Forall is_log lines ∧
    op tr =
    (match execFileOpen env (bearUrl action params) with
     | None => Returned tt
     | Some cause =>
         Threw (BearError ("Failed to call Bear action: " +:+ action) (Some cause))
     end,
     tr ++ ExecOpen (bearUrl action params) :: lines).

(** The handler of a write tool answers with [done] when the dispatch
    of [action] succeeds and with the message of the [BearError]
    otherwise. *)
Definition answers_dispatch (env : Env) (handler : IO ToolResult)
    (action : string) (params : Params) (done : string) : Prop :=
  ∀ tr, ∃ tr',
    handler tr =
    (Returned
       (match execFileOpen env (bearUrl action params) with
        | None => {| content := [Text done]; isError := false |}
        | Some _ =>
            {| content := [Text ("Error: Failed to call Bear action: " +:+ action)];
               isError := true |}
        end), tr') ∧
    ∃ lines, tr' = tr ++ ExecOpen (bearUrl action params) :: lines ∧
             Forall is_log lines.

(** The value of a hexadecimal digit, and percent-decoding, the inverse
    that the receiver of the URL applies to a parameter value. *)
Definition hex_value (c : ascii) : option N :=
  if between "0" "9" c then Some (N_of_ascii c - 48)%N
  else if between "A" "F" c then Some (N_of_ascii c - 55)%N
  else None.

Fixpoint percent_decode (s : string) : option string :=
  match s with
  | "" => Some ""
  | String c rest =>
      if decide (c = "%"%char) then
        match rest with
        | String h (String l rest') =>
            match hex_value h, hex_value l with
            | Some a, Some b =>
                String (ascii_of_N (16 * a + b)) <$> percent_decode rest'
            | _, _ => None
            end
        | _ => None
        end
      else String c <$> percent_decode rest
  end.

(** [m] has no effect but logging: whatever it returns or throws, the
    trace grows by log lines only. *)
Definition logs_only {A} (m : IO A) : Prop :=
  ∀ tr, ∃ lines, (m tr).2 = tr ++ lines ∧ Forall is_log lines.

Definition throws {A} (m : IO A) (e : JsError) : Prop :=
  ∀ tr, ∃ tr', m tr = (Threw e, tr').

Definition answers_error (handler : IO ToolResult) (message : string) : Prop :=
  ∀ tr, ∃ tr',
    handler tr =
    (Returned {| content := [Text ("Error: " +:+ message)]; isError := true |},
     tr').

(** A store whose queries fail, and an environment without a store. *)
Definition locked_store : Database := {|
  notes := notes sample_store;
  tags := tags sample_store;
  note_tags := note_tags sample_store;
  fault := Some (SystemError "database is locked")
|}.

Definition locked_env : Env := {|
  BEAR_MCP_LOG_LEVEL := None;
  execFileOpen := λ _, None;
  database := inr locked_store
|}.

Definition no_store_env : Env := {|
  BEAR_MCP_LOG_LEVEL := None;
  execFileOpen := λ _, None;
  database :=
    inl (DatabaseError
           "Bear database not found. Make sure Bear is installed and has been opened at least once."
           None)
|}.

Definition always_answers (handler : IO ToolResult) : Prop :=
  ∀ tr, ∃ result tr', handler tr = (Returned result, tr').

#[export] Instance name_asc_trans : Transitive name_asc.
Proof. intros a b c. unfold name_asc. apply transitivity. Qed.

#[export] Instance name_asc_total : Total name_asc.
Proof. intros a b. unfold name_asc. apply total, _. Qed.

(** [n] is linked to the tag row [t] by the join relation of [db]. *)
Definition linked (db : Database) (n : ZSFNOTE.t) (t : ZSFNOTETAG.t) : Prop :=
  ∃ nt, nt ∈ note_tags db ∧
        ZSFNOTETAG.Z_PK t = Z_5TAGS.Z_13TAGS nt ∧
        Z_5TAGS.Z_5NOTES nt = ZSFNOTE.Z_PK n.

#[export] Instance ZSFNOTE_eq_dec : EqDecision ZSFNOTE.t.
Proof. solve_decision. Defined.

(** The title or the body of [n] contains [term] up to ASCII case. *)
Definition mentions (term : string) (n : ZSFNOTE.t) : Prop :=
  contains_ci term (ZSFNOTE.ZTITLE n) ∨ contains_ci term (ZSFNOTE.ZTEXT n).

(** ** database.ts: the shared connection

    The module keeps one variable, [db], that holds the open handle or
    [null]. The host is what the module reads from outside: the home
    directory, the file system ([existsSync], and [new Database(path,
    {readonly: true})], which yields a handle or throws) and the log
    level. [join(homedir(), p)] is the home directory, a slash and [p]
    (the home directory is an absolute path that ends in no slash). The
    effects record, in order, every call of [existsSync] ([Probed]),
    every call of [new Database] ([OpenReadonly], whether or not it
    succeeds), every [close] of a handle and every log line. *)
Module Connection.

Record Host : Type := {
  homedir : string;
  existsSync : string → bool;
  openReadonly : string → JsError + Database;
  LOG_LEVEL : option string
}.

Inductive Effect : Type :=
  | Probed (path : string)
  | OpenReadonly (path : string)
  | Closed
  | Logged (level : LogLevel) (message : string).

Record State : Type := {
  db : option Database;
  effects : list Effect
}.

Definition M (A : Type) : Type := State → Outcome A * State.

Definition emit (ev : Effect) : M unit :=
  λ s, (Returned tt, {| db := db s; effects := effects s ++ [ev] |}).

Definition log (host : Host) (level : LogLevel) (message : string) : M unit :=
  λ s, if shouldLog (getLogLevel (LOG_LEVEL host)) level
       then emit (Logged level message) s
       else (Returned tt, s).

Definition DB_PATHS (host : Host) : list string :=
  [ homedir host +:+ "/" +:+
      "Library/Group Containers/9K33E3U3T4.net.shinyfrog.bear/Application Data/database.sqlite";
    homedir host +:+ "/" +:+
      "Library/Containers/net.shinyfrog.bear/Data/Documents/Application Data/database.sqlite" ].

(** The loop of [findDatabasePath] over the candidate paths left. *)
Fixpoint probe (host : Host) (paths : list string) : M string :=
  λ s, match paths with
       | [] =>
           (Threw (DatabaseError
              "Bear database not found. Make sure Bear is installed and has been opened at least once."
              None), s)
       | path :: paths' =>
           let s := (emit (Probed path) s).2 in
           if existsSync host path
           then (Returned path, (log host info "Found Bear database" s).2)
           else probe host paths' s
       end.

Definition findDatabasePath (host : Host) : M string :=
  probe host (DB_PATHS host).

Definition getDatabase (host : Host) : M Database :=
  λ s, match db s with
       | Some handle => (Returned handle, s)
       | None =>
           match findDatabasePath host s with
           | (Threw e, s) => (Threw e, s)
           | (Returned dbPath, s) =>
               let s := (emit (OpenReadonly dbPath) s).2 in
               match openReadonly host dbPath with
               | inr handle =>
                   let s := {| db := Some handle; effects := effects s |} in
                   (Returned handle,
                    (log host info "Connected to Bear database" s).2)
               | inl cause =>
                   (Threw (DatabaseError "Failed to open Bear database" (Some cause)),
                    (log host error "Failed to open database" s).2)
               end
           end
       end.

Definition closeDatabase (host : Host) : M unit :=
  λ s, match db s with
       | Some _ =>
           let s := (emit Closed s).2 in
           let s := {| db := None; effects := effects s |} in
           log host info "Closed Bear database connection" s
       | None => (Returned tt, s)
       end.

End Connection.

(** The lines that a call of the logger adds to the effects. *)
Definition connection_log (host : Connection.Host) (level : LogLevel)
    (message : string) : list Connection.Effect :=
  if shouldLog (getLogLevel (Connection.LOG_LEVEL host)) level
  then [Connection.Logged level message] else [].

Definition NOT_FOUND : JsError :=
  DatabaseError
    "Bear database not found. Make sure Bear is installed and has been opened at least once."
    None.

(** A host whose only store is the local one (no iCloud container), a
    host without Bear, and the state of the module before any call. *)
Definition local_host : Connection.Host := {|
  Connection.homedir := "/Users/me";
  Connection.existsSync := λ path,
    bool_decide (path =
      "/Users/me/Library/Containers/net.shinyfrog.bear/Data/Documents/Application Data/database.sqlite");
  Connection.openReadonly := λ _, inr sample_store;
  Connection.LOG_LEVEL := None
|}.

Definition bare_host : Connection.Host := {|
  Connection.homedir := "/Users/me";
  Connection.existsSync := λ _, false;
  Connection.openReadonly := λ _, inl (SystemError "unable to open database file");
  Connection.LOG_LEVEL := None
|}.

Definition initial_state : Connection.State :=
  {| Connection.db := None; Connection.effects := [] |}.

(** The text [YYYY-MM-DD HH:MM:SS] of a civil time, with a [-] before
    a year before 0000. *)
Definition format_datetime (y m d hh mm ss : Z) : string :=
  (if y <? 0 then "-" +:+ pad4 (- y) else pad4 y) +:+ "-" +:+
  pad2 m +:+ "-" +:+ pad2 d +:+ " " +:+
  pad2 hh +:+ ":" +:+ pad2 mm +:+ ":" +:+ pad2 ss.

(** [text] is the civil time in UTC, of the years -4713 to 9999, that
    lies [V] seconds after 2001-01-01 00:00:00. *)
Definition reads_core_data_time (text : string) (V : Z) : Prop :=
  ∃ y m d hh mm ss,
    text = format_datetime y m d hh mm ss ∧
    -4713 ≤ y ≤ 9999 ∧ 1 ≤ m ≤ 12 ∧ 1 ≤ d ≤ days_in_month y m ∧
    0 ≤ hh < 24 ∧ 0 ≤ mm < 60 ∧ 0 ≤ ss < 60 ∧
    unix_seconds y m d hh mm ss = unix_seconds 2001 1 1 0 0 0 + V.

(** * Properties *)

(** ** Running the monad *)

Lemma bind_returned {A B} (m : IO A) (k : A → IO B) tr a tr' :
  m tr = (Returned a, tr') → (m ≫= k) tr = k a tr'.
Proof. intros Hm. unfold mbind, IO_bind, bind. by rewrite Hm. Qed.

Lemma bind_threw {A B} (m : IO A) (k : A → IO B) tr e tr' :
  m tr = (Threw e, tr') → (m ≫= k) tr = (Threw e, tr').
Proof. intros Hm. unfold mbind, IO_bind, bind. by rewrite Hm. Qed.

Lemma try_catch_returned {A} (m : IO A) h tr a tr' :
  m tr = (Returned a, tr') → try_catch m h tr = (Returned a, tr').
Proof. intros Hm. unfold try_catch. by rewrite Hm. Qed.

Lemma try_catch_threw {A} (m : IO A) h tr e tr' :
  m tr = (Threw e, tr') → try_catch m h tr = h e tr'.
Proof. intros Hm. unfold try_catch. by rewrite Hm. Qed.

Lemma getDatabase_ok env db tr :
  database env = inr db → getDatabase env tr = (Returned db, tr).
Proof. intros Hdb. unfold getDatabase. by rewrite Hdb. Qed.

Lemma all_ok {A} db (query : Database → list A) tr :
  fault db = None → all db query tr = (Returned (query db), tr).
Proof. intros Hf. unfold all. by rewrite Hf. Qed.

(** ** Lists: DISTINCT, ORDER BY, LIMIT *)

Lemma DISTINCT_subseteq {A K} `{EqDecision K} (select : A → K) seen rows x :
  x ∈ DISTINCT select seen rows → x ∈ rows.
Proof.
  revert seen. induction rows as [|r rows IH]; intros seen; simpl; [done|].
  case_decide.
  - intros Hx. right. by eapply IH.
  - intros [->|Hx]%elem_of_cons; [left|right; by eapply IH].
Qed.

Lemma StronglySorted_take {A} (R : relation A) n l :
  StronglySorted R l → StronglySorted R (take n l).
Proof.
  intros Hl. rewrite <- (take_drop n l) in Hl.
  by apply StronglySorted_app in Hl as (_ & ? & _).
Qed.

Lemma ordered_limit_sorted n rows :
  StronglySorted modified_desc (LIMIT n (ORDER_BY_ZMODIFICATIONDATE_DESC rows)).
Proof.
  apply StronglySorted_take, StronglySorted_merge_sort; apply _.
Qed.

Lemma ordered_limit_subseteq n rows x :
  x ∈ LIMIT n (ORDER_BY_ZMODIFICATIONDATE_DESC rows) → x ∈ rows.
Proof.
  unfold LIMIT, ORDER_BY_ZMODIFICATIONDATE_DESC.
  intros (i & Hx%list_elem_of_lookup_2 & _)%elem_of_take.
  by rewrite merge_sort_Permutation in Hx.
Qed.

Lemma limit_length {A} n (rows : list A) : (length (LIMIT n rows) ≤ n)%nat.
Proof. unfold LIMIT. rewrite length_take. lia. Qed.

(** ** Unix time *)

(** Case analysis on every integer comparison of the goal. *)
Ltac split_comparisons :=
  repeat match goal with
         | |- context [Z.ltb ?a ?b] => destruct (Z.ltb_spec a b)
         | |- context [Z.leb ?a ?b] => destruct (Z.leb_spec a b)
         | |- context [Z.eqb ?a ?b] => destruct (Z.eqb_spec a b)
         end.

(** [civil_from_days] within one era of 400 years (146097 days): the
    year of the era, the month and the day it computes for the day [doe]
    of the era. *)
Lemma era_correct doe :
  0 ≤ doe < 146097 →
  let yoe := (doe - doe / 1460 + doe / 36524 - doe / 146096) / 365 in
  let doy := doe - (365 * yoe + yoe / 4 - yoe / 100) in
  let mp := (5 * doy + 2) / 153 in
  let d := doy - (153 * mp + 2) / 5 + 1 in
  let m := if mp <? 10 then mp + 3 else mp - 9 in
  let y := yoe + (if m <=? 2 then 1 else 0) in
  0 ≤ yoe ≤ 399 ∧ 1 ≤ m ≤ 12 ∧ 1 ≤ d ≤ days_in_month y m ∧
  (if 2 <? m then m - 3 else m + 9) = mp.
Proof.
  intros Hdoe yoe doy mp d m y.
  assert (0 ≤ yoe ≤ 399 ∧ 0 ≤ doy ≤ 365 ∧
          (doy = 365 → (yoe + 1) mod 4 = 0 ∧
             ((yoe + 1) mod 100 ≠ 0 ∨ (yoe + 1) mod 400 = 0)))
    as (Hyoe & Hdoy & Hleap).
  { subst yoe doy. Z.div_mod_to_equations. lia. }
  clearbody yoe doy. clear Hdoe doe.
  assert (0 ≤ mp ≤ 11) as Hmp by (subst mp; Z.div_mod_to_equations; lia).
  assert (1 ≤ m ≤ 12 ∧ (if 2 <? m then m - 3 else m + 9) = mp) as [Hm Hinv].
  { subst m. destruct (Z.ltb_spec mp 10); split_comparisons; lia. }
  split; [lia|]. split; [lia|]. split; [|done].
  unfold days_in_month. subst y.
  split_comparisons; simpl; subst d mp; clear Hinv;
    try destruct (Z.ltb_spec ((5 * doy + 2) / 153) 10);
    Z.div_mod_to_equations; lia.
Qed.

Lemma days_in_month_era y era m :
  days_in_month (y + era * 400) m = days_in_month y m.
Proof.
  unfold days_in_month.
  replace ((y + era * 400) mod 4) with (y mod 4)
    by (replace (y + era * 400) with (y + (era * 100) * 4) by lia;
        by rewrite Z_mod_plus_full).
  replace ((y + era * 400) mod 100) with (y mod 100)
    by (replace (y + era * 400) with (y + (era * 4) * 100) by lia;
        by rewrite Z_mod_plus_full).
  by rewrite Z_mod_plus_full.
Qed.

(** The date that [civil_from_days] computes is a date of the calendar,
    and it lies the given number of days from 1970-01-01. *)
Lemma civil_from_days_correct days :
  let '(y, m, d) := civil_from_days days in
  days_from_civil y m d = days ∧ 1 ≤ m ≤ 12 ∧ 1 ≤ d ≤ days_in_month y m.
Proof.
  unfold civil_from_days.
  set (era := (days + 719468) / 146097).
  set (doe := days + 719468 - era * 146097).
  assert (0 ≤ doe < 146097) as Hdoe.
  { unfold doe, era. pose proof (Z.mod_pos_bound (days + 719468) 146097).
    rewrite Z.mod_eq in H by lia. lia. }
  pose proof (era_correct doe Hdoe) as Hera. simpl in Hera.
  set (yoe := (doe - doe / 1460 + doe / 36524 - doe / 146096) / 365) in *.
  set (doy := doe - (365 * yoe + yoe / 4 - yoe / 100)) in *.
  set (mp := (5 * doy + 2) / 153) in *.
  set (d := doy - (153 * mp + 2) / 5 + 1) in *.
  set (m := if mp <? 10 then mp + 3 else mp - 9) in *.
  destruct Hera as (Hyoe & Hm & Hd & Hinv).
  assert (yoe + era * 400 + (if m <=? 2 then 1 else 0) =
          yoe + (if m <=? 2 then 1 else 0) + era * 400) as -> by lia.
  rewrite days_in_month_era. split_and!; try lia.
  unfold days_from_civil. rewrite Hinv.
  assert ((if m <=? 2
           then yoe + (if m <=? 2 then 1 else 0) + era * 400 - 1
           else yoe + (if m <=? 2 then 1 else 0) + era * 400) =
          yoe + era * 400) as -> by (destruct (m <=? 2); lia).
  assert ((yoe + era * 400) / 400 = era) as ->.
  { rewrite Z.div_add by lia. rewrite Z.div_small by lia. lia. }
  assert (yoe + era * 400 - era * 400 = yoe) as -> by lia.
  unfold doe in *. lia.
Qed.

(** The civil time that [datetime_unixepoch] prints for [seconds] is the
    one that lies [seconds] seconds from 1970-01-01 00:00:00. *)
Lemma civil_time_is_unix_time seconds :
  let '(y, m, d) := civil_from_days (seconds / 86400) in
  let sod := seconds mod 86400 in
  unix_seconds y m d (sod / 3600) (sod / 60 mod 60) (sod mod 60) = seconds ∧
  1 ≤ m ≤ 12 ∧ 1 ≤ d ≤ days_in_month y m ∧
  0 ≤ sod / 3600 < 24 ∧ 0 ≤ sod / 60 mod 60 < 60 ∧ 0 ≤ sod mod 60 < 60.
Proof.
  pose proof (civil_from_days_correct (seconds / 86400)) as Hdays.
  destruct (civil_from_days (seconds / 86400)) as [[y m] d].
  destruct Hdays as (Hdays & Hm & Hd). unfold unix_seconds. rewrite Hdays.
  pose proof (Z.mod_pos_bound seconds 86400 ltac:(lia)).
  split_and!; try lia; try (apply Z.mod_pos_bound; lia).
  - pose proof (Z.div_mod seconds 86400 ltac:(lia)).
    set (sod := seconds mod 86400) in *.
    pose proof (Z.div_mod sod 60 ltac:(lia)).
    pose proof (Z.div_mod (sod / 60) 60 ltac:(lia)).
    assert (sod / 3600 = sod / 60 / 60) as ->
      by (rewrite Z.div_div by lia; done).
    lia.
  - apply Z.div_pos; lia.
  - apply Z.div_lt_upper_bound; lia.
Qed.

(** ** LIKE and case-insensitive containment *)

Lemma append_assoc (a b c : string) : (a +:+ b) +:+ c = a +:+ b +:+ c.
Proof.
  induction a as [|x a IH]; [done|].
  change ((String x a +:+ b) +:+ c) with (String x ((a +:+ b) +:+ c)).
  by rewrite IH.
Qed.

Lemma chars_app a b : chars (a +:+ b) = chars a ++ chars b.
Proof.
  unfold chars. induction a as [|c a IH]; [done|].
  change (String c a +:+ b) with (String c (a +:+ b)). simpl. by rewrite IH.
Qed.

Lemma like_percent pattern s :
  like_chars ("%"%char :: pattern) s ↔
  ∃ skipped rest, s = skipped ++ rest ∧ like_chars pattern rest.
Proof.
  simpl. induction s as [|c s IH].
  - rewrite orb_false_r. split.
    + intros H. by exists [], [].
    + intros (skipped & rest & Hs & H).
      symmetry in Hs. by apply app_eq_nil in Hs as [_ ->].
  - rewrite orb_True, IH. split.
    + intros [H|(skipped & rest & -> & H)].
      * by exists [], (c :: s).
      * by exists (c :: skipped), rest.
    + intros ([|c' skipped] & rest & Hs & H); simpl in Hs.
      * left. by subst rest.
      * right. injection Hs as -> ->. by exists skipped, rest.
Qed.

Lemma like_literal_prefix literal pattern s :
  Forall (λ c, ¬ like_wildcard c) literal →
  like_chars (literal ++ pattern) s →
  ∃ matched rest,
    s = matched ++ rest ∧
    lower_ascii <$> matched = lower_ascii <$> literal ∧
    like_chars pattern rest.
Proof.
  intros Hlit. revert s.
  induction Hlit as [|p literal Hp _ IH]; intros s; simpl.
  - intros H. by exists [], s.
  - case_decide as Hpc; [by destruct Hp; left|].
    destruct s as [|c s]; [done|].
    rewrite andb_True, orb_True, !bool_decide_spec.
    intros [[Hu|Hpc'] (matched & rest & -> & Hm & Hrest)%IH].
    { by destruct Hp; right. }
    exists (c :: matched), rest. rewrite !fmap_cons, Hm, Hpc'. done.
Qed.

Lemma LIKE_substring_pattern needle s :
  wildcard_free needle →
  LIKE s ("%" +:+ needle +:+ "%") → contains_ci needle s.
Proof.
  intros Hfree. unfold LIKE. rewrite !chars_app.
  change (chars "%") with ["%"%char]. simpl.
  intros (skipped & rest & Hs & Hlike)%like_percent.
  apply like_literal_prefix in Hlike as (matched & after & -> & Hm & _); [|done].
  exists (lower_ascii <$> skipped), (lower_ascii <$> after).
  by rewrite Hs, !fmap_app, Hm.
Qed.

(** ** Tags resolved by [getNoteTagsBatch] *)

Lemma foldl_push_tag rows (result : gmap string (list string)) noteId :
  default [] (foldl push_tag result rows !! noteId) =
  default [] (result !! noteId) ++
  (snd <$> filter (λ row, row.1 = noteId) rows).
Proof.
  revert result. induction rows as [|row rows IH]; intros result; simpl.
  - by rewrite app_nil_r.
  - rewrite IH. unfold push_tag at 1. rewrite filter_cons.
    destruct (decide (row.1 = noteId)) as [->|Hne].
    + rewrite lookup_insert_eq, fmap_cons. simpl. by rewrite <- app_assoc.
    + by rewrite lookup_insert_ne.
Qed.

Lemma note_tag_rows_nil db : note_tag_rows [] db = [].
Proof.
  unfold note_tag_rows.
  assert ((t ← tags db; nt ← note_tags db; n ← notes db;
           if decide (ZSFNOTETAG.Z_PK t = Z_5TAGS.Z_13TAGS nt ∧
                      Z_5TAGS.Z_5NOTES nt = ZSFNOTE.Z_PK n ∧
                      ZSFNOTE.ZUNIQUEIDENTIFIER n ∈ @nil string)
           then [(ZSFNOTE.ZUNIQUEIDENTIFIER n, ZSFNOTETAG.ZTITLE t)] else [])
          = []) as ->; [|done].
  apply elem_of_nil_inv. intros row Hrow.
  apply list_elem_of_bind in Hrow as (t & Hrow & _).
  apply list_elem_of_bind in Hrow as (nt & Hrow & _).
  apply list_elem_of_bind in Hrow as (n & Hrow & _).
  case_decide as H; [|by apply elem_of_nil in Hrow].
  destruct H as (_ & _ & H). by apply elem_of_nil in H.
Qed.

Lemma getNoteTagsBatch_ok env db noteIds tr :
  database env = inr db → fault db = None →
  getNoteTagsBatch env noteIds tr =
  (Returned (foldl push_tag ∅ (note_tag_rows noteIds db)), tr).
Proof.
  intros Hdb Hf. destruct noteIds as [|noteId noteIds].
  - by rewrite note_tag_rows_nil.
  - unfold getNoteTagsBatch.
    erewrite bind_returned by by apply getDatabase_ok.
    erewrite bind_returned by by apply all_ok.
    done.
Qed.

Lemma elem_of_resolved_tags db noteIds noteId name :
  name ∈ resolved_tags db noteIds noteId ↔
  ∃ t nt n,
    t ∈ tags db ∧ nt ∈ note_tags db ∧ n ∈ notes db ∧
    ZSFNOTETAG.Z_PK t = Z_5TAGS.Z_13TAGS nt ∧
    Z_5TAGS.Z_5NOTES nt = ZSFNOTE.Z_PK n ∧
    ZSFNOTE.ZUNIQUEIDENTIFIER n = noteId ∧ noteId ∈ noteIds ∧
    ZSFNOTETAG.ZTITLE t = name.
Proof.
  unfold resolved_tags. rewrite foldl_push_tag, lookup_empty. simpl.
  rewrite list_elem_of_fmap. split.
  - intros ([id' name'] & -> & [Hid Hrow]%list_elem_of_filter).
    simpl in Hid. subst id'. unfold note_tag_rows in Hrow.
    rewrite merge_sort_Permutation in Hrow.
    apply list_elem_of_bind in Hrow as (t & Hrow & Ht).
    apply list_elem_of_bind in Hrow as (nt & Hrow & Hnt).
    apply list_elem_of_bind in Hrow as (n & Hrow & Hn).
    case_decide as Hc; [|by apply elem_of_nil in Hrow].
    apply list_elem_of_singleton in Hrow. injection Hrow as -> ->.
    destruct Hc as (? & ? & ?). by exists t, nt, n.
  - intros (t & nt & n & Ht & Hnt & Hn & H1 & H2 & <- & Hin & <-).
    exists (ZSFNOTE.ZUNIQUEIDENTIFIER n, ZSFNOTETAG.ZTITLE t). split; [done|].
    apply list_elem_of_filter. split; [done|].
    unfold note_tag_rows. rewrite merge_sort_Permutation.
    apply list_elem_of_bind. exists t. split; [|done].
    apply list_elem_of_bind. exists nt. split; [|done].
    apply list_elem_of_bind. exists n. split; [|done].
    rewrite decide_True by done. by apply list_elem_of_singleton.
Qed.

(** ** searchNotes *)

Lemma searchNotes_ok env db term tag tr :
  database env = inr db → fault db = None →
  searchNotes env term tag tr =
  (Returned
     (search_result
        (foldl push_tag ∅ (note_tag_rows (Row.id <$> search_rows term tag db) db))
      <$> search_rows term tag db),
   tr).
Proof.
  intros Hdb Hf. unfold searchNotes.
  erewrite bind_returned by by apply getDatabase_ok.
  apply try_catch_returned.
  erewrite bind_returned by by apply all_ok.
  assert (∀ rows, rows = search_rows term tag db →
    (tagsByNote ← getNoteTagsBatch env (Row.id <$> rows);
     mret (search_result tagsByNote <$> rows)) tr =
    (Returned
       (search_result (foldl push_tag ∅ (note_tag_rows (Row.id <$> rows) db))
        <$> rows), tr)) as Hrun.
  { intros rows _. by erewrite bind_returned by by apply getNoteTagsBatch_ok. }
  rewrite <- (Hrun _ eq_refl). unfold search_rows.
  by destruct tag as [[|? ?]|], term as [[|? ?]|].
Qed.

Lemma search_result_shows tagsByNote with_content n :
  shows (search_result tagsByNote (columns with_content true n)) n.
Proof. by repeat split. Qed.

Lemma search_by_tag_source_spec pattern db n :
  n ∈ search_by_tag_source pattern db →
  n ∈ notes db ∧ live n ∧
  ∃ nt t, nt ∈ note_tags db ∧ t ∈ tags db ∧
    ZSFNOTE.Z_PK n = Z_5TAGS.Z_5NOTES nt ∧
    Z_5TAGS.Z_13TAGS nt = ZSFNOTETAG.Z_PK t ∧
    LIKE (ZSFNOTETAG.ZTITLE t) pattern.
Proof.
  unfold search_by_tag_source.
  intros Hn%ordered_limit_subseteq%DISTINCT_subseteq.
  apply list_elem_of_bind in Hn as (n' & Hn & Hn').
  apply list_elem_of_bind in Hn as (nt & Hn & Hnt).
  apply list_elem_of_bind in Hn as (t & Hn & Ht).
  case_decide as Hc; [|by apply elem_of_nil in Hn].
  apply list_elem_of_singleton in Hn as ->.
  destruct Hc as (? & ? & ? & ?). split_and!; [done..|]. by exists nt, t.
Qed.

Lemma tag_search_notes db term filter c :
  search_rows term (Some (String c filter)) db =
  columns true true <$>
  search_by_tag_source ("%" +:+ String c filter +:+ "%") db.
Proof. done. Qed.

(** Whatever its arguments, [searchNotes] selects live rows, in
    descending order of modification time, at most 100 of them. *)
Lemma search_rows_bounds term tag db :
  ∃ with_content src,
    search_rows term tag db = columns with_content true <$> src ∧
    (∀ n, n ∈ src → n ∈ notes db ∧ live n) ∧
    StronglySorted modified_desc src ∧
    (length src ≤ 100)%nat.
Proof.
  unfold search_rows. destruct tag as [[|c tag]|], term as [[|c' term]|];
    first [ exists true, (search_by_tag_source ("%" +:+ String c tag +:+ "%") db);
            split; [done|]; split; [|split];
            [ intros n Hn;
              by destruct (search_by_tag_source_spec _ _ _ Hn) as (? & ? & _)
            | apply ordered_limit_sorted
            | apply limit_length ]
          | exists true, (search_by_text_source ("%" +:+ String c' term +:+ "%")
                            ("%" +:+ String c' term +:+ "%") db);
            split; [done|]; split; [|split];
            [ unfold search_by_text_source;
              intros n [[_ ?] ?]%ordered_limit_subseteq%list_elem_of_filter; done
            | apply ordered_limit_sorted
            | apply limit_length ]
          | exists false, (recent_notes_source db);
            split; [done|]; split; [|split];
            [ unfold recent_notes_source;
              intros n [? ?]%ordered_limit_subseteq%list_elem_of_filter; done
            | apply ordered_limit_sorted
            | etrans; [apply limit_length|lia] ] ].
Qed.


Lemma sample_store_plain : plain_identifiers sample_store.
Proof. apply (bool_decide_unpack _). vm_compute. exact I. Defined.


Lemma contains_ci_elem_of needle s c :
  contains_ci needle s →
  c ∈ lower_ascii <$> chars needle → c ∈ lower_ascii <$> chars s.
Proof.
  intros (before & after & ->) Hc. rewrite !elem_of_app. by right; left.
Qed.


(** An empty filter is no filter: the recent notes are listed, the
    untagged ones among them. *)
Example empty_tag_filter_lists_untagged :
  ∃ found note,
    searchNotes sample_env None (Some "") [] = (Returned found, []) ∧
    note ∈ found ∧ Note.tags note = Some [].
Proof.
  eexists _, _. split; [vm_compute; reflexivity|].
  split; [apply list_elem_of_here|]. reflexivity.
Qed.

(** C10, as the code has it: when the tag filter is a non-empty string,
    the free-text term plays no part: the search runs as it does with
    the tag filter alone, in every environment. *)
Theorem tag_filter_takes_precedence env term T tr :
  T ≠ "" →
  searchNotes env (Some term) (Some T) tr = searchNotes env None (Some T) tr.
Proof. intros HT. by destruct T. Qed.

Lemma tag_filter_takes_precedence_witness :
  searchNotes sample_env (Some "plan") (Some "wor") [] =
  searchNotes sample_env None (Some "wor") [].
Proof.
  apply (tag_filter_takes_precedence sample_env "plan" "wor" []).
  discriminate.
Defined.

(** C10 as stated fails when the tag filter is the empty string, which
    [if (tag)] takes for no filter: with a term the text query runs,
    without one the recent notes are listed. *)
Lemma empty_tag_filter_counterexample :
  searchNotes sample_env (Some "project") (Some "") [] ≠
  searchNotes sample_env None (Some "") [].
Proof. vm_compute. discriminate. Qed.

Lemma recent_notes_source_spec db n :
  n ∈ recent_notes_source db → n ∈ notes db ∧ live n.
Proof.
  unfold recent_notes_source.
  intros [? ?]%ordered_limit_subseteq%list_elem_of_filter. done.
Qed.



(** ** Write path *)

Lemma logger_run env level message tr :
  ∃ lines, logger env level message tr = (Returned tt, tr ++ lines) ∧
           Forall (λ ev, ∃ l m, ev = Logged l m) lines.
Proof.
  unfold logger. destruct (shouldLog _ _).
  - exists [Logged level message]. split; [done|]. repeat constructor. eauto.
  - exists []. split; [by rewrite app_nil_r|]. constructor.
Qed.

(** What one call of [callBearUrl] does: a single run of [open] on the
    URL of the action, then either a normal return or a [BearError]. *)
Lemma callBearUrl_run env action params tr :
  ∃ lines,
    Forall (λ ev, ∃ l m, ev = Logged l m) lines ∧
    callBearUrl env action params tr =
    (match execFileOpen env (bearUrl action params) with
     | None => Returned tt
     | Some cause =>
         Threw (BearError ("Failed to call Bear action: " +:+ action) (Some cause))
     end,
     tr ++ ExecOpen (bearUrl action params) :: lines).
Proof.
  unfold callBearUrl, execFileAsync_open, try_catch, mbind, IO_bind, bind, emit.
  destruct (execFileOpen env (bearUrl action params)) as [cause|]; simpl.
  - destruct (logger_run env error "Bear URL call failed"
                (tr ++ [ExecOpen (bearUrl action params)])) as (lines & -> & Hl).
    exists lines. split; [done|]. unfold throw. by rewrite <- app_assoc.
  - destruct (logger_run env debug "Called Bear URL"
                (tr ++ [ExecOpen (bearUrl action params)])) as (lines & -> & Hl).
    exists lines. split; [done|]. by rewrite <- app_assoc.
Qed.

(** C3, as the code has it: when the [open] command fails, [callBearUrl]
    throws a [BearError] whose message names the action and whose cause
    is the failure of the command, as it came; when it succeeds,
    [callBearUrl] returns. Either way [open] has been run once on the URL
    of the action, and the outcome is the same whatever the state of the
    store, which is not consulted. The parameter values are well-formed
    strings, for which the URL can be built. *)
Theorem callBearUrl_outcome env action params tr :
  Forall (λ kv, well_formed kv.2) params →
  (∀ cause, execFileOpen env (bearUrl action params) = Some cause →
     ∃ tr', callBearUrl env action params tr = (Threw
              (BearError ("Failed to call Bear action: " +:+ action) (Some cause)),
              tr') ∧
            ExecOpen (bearUrl action params) ∈ tr') ∧
  (execFileOpen env (bearUrl action params) = None →
     ∃ tr', callBearUrl env action params tr = (Returned tt, tr') ∧
            ExecOpen (bearUrl action params) ∈ tr') ∧
  (∀ store,
     callBearUrl {| BEAR_MCP_LOG_LEVEL := BEAR_MCP_LOG_LEVEL env;
                    execFileOpen := execFileOpen env;
                    database := store |} action params tr =
     callBearUrl env action params tr).
Proof.
  intros _.
  destruct (callBearUrl_run env action params tr) as (lines & _ & Hrun).
  split_and!.
  - intros cause Hopen. rewrite Hopen in Hrun. eexists. split; [exact Hrun|].
    apply elem_of_app. right. apply list_elem_of_here.
  - intros Hopen. rewrite Hopen in Hrun. eexists. split; [exact Hrun|].
    apply elem_of_app. right. apply list_elem_of_here.
  - done.
Qed.

Lemma callBearUrl_outcome_witness :
  (∃ tr', callBearUrl offline_env "trash" [("id", "A")] [] =
            (Threw (BearError "Failed to call Bear action: trash"
                      (Some (SystemError
                         "Command failed: open bear://x-callback-url/trash?id=A"))),
             tr') ∧
          ExecOpen "bear://x-callback-url/trash?id=A" ∈ tr') ∧
  (∃ tr', callBearUrl sample_env "trash" [("id", "A")] [] = (Returned tt, tr') ∧
          ExecOpen "bear://x-callback-url/trash?id=A" ∈ tr').
Proof.
  split.
  - apply (callBearUrl_outcome offline_env "trash" [("id", "A")] []).
    + repeat constructor.
    + reflexivity.
  - apply (callBearUrl_outcome sample_env "trash" [("id", "A")] []).
    + repeat constructor.
    + reflexivity.
Defined.

(** C3 as stated fails on the parameters: a [BearError] holds a message
    and a cause. The message is the same whatever the parameters, so
    that they cannot be read off it; the cause is the rejection of
    [open] as it came, and [callBearUrl] puts nothing else in the
    error. *)
Lemma BearError_message_without_params_counterexample :
  ¬ ∃ params_of : string → Params,
      ∀ env action params tr e tr',
        callBearUrl env action params tr = (Threw e, tr') →
        params_of (error_message e) = params.
Proof.
  intros (params_of & Hcarries).
  pose proof (Hcarries offline_env "trash" [("id", "A")] [] _ _ eq_refl) as HA.
  pose proof (Hcarries offline_env "trash" [("id", "B")] [] _ _ eq_refl) as HB.
  simpl in HA, HB. rewrite HA in HB. discriminate.
Qed.



(** C1, on the input that shows the defect: the handler passes
    [(noteId, title, text, tags)] to a function declared
    [(noteId, text, tags?)]. With a non-empty body the body string lands
    in [tags], [tags.map] is not a function, nothing is dispatched and
    the handler answers with an error payload; called as declared,
    [replaceNoteContent] dispatches the tag line and the body with no
    title line at all. *)
Theorem bear_replace_content_dispatches_no_title :
  (∃ message,
     bear_replace_content sample_env "A" "Title" "body" (Some ["x"]) [] =
       (Returned {| content := [Text ("Error: " +:+ message)];
                    isError := true |},
        [Logged error "Tool execution failed"])) ∧
  bear_replace_content sample_env "A" "Title" "" (Some ["x"]) [] =
    (Returned {| content := [Text "Replaced content of note: A"];
                 isError := false |},
     [ExecOpen "bear://x-callback-url/add-text?id=A&text=Title&mode=replace_all";
      Logged info "Replaced note content"]) ∧
  replaceNoteContent sample_env "A" "body" (TagsArray ["x"]) [] =
    (callBearUrl sample_env "add-text"
       [("id", "A"); ("text", "#x" +:+ LF +:+ LF +:+ "body");
        ("mode", "replace_all")];;
     logger sample_env info "Replaced note content") [].
Proof. split_and!; [by eexists|reflexivity..]. Qed.

(** ** Reading one note, and the two listings *)

Lemma getNoteContent_ok env db noteId tr :
  database env = inr db → fault db = None →
  getNoteContent env noteId tr =
  (Returned
     (fetched_note db noteId <$>
      head (filter (λ n, ZSFNOTE.ZUNIQUEIDENTIFIER n = noteId) (notes db))),
   tr).
Proof.
  intros Hdb Hf. unfold getNoteContent.
  erewrite bind_returned by by apply getDatabase_ok.
  apply try_catch_returned. unfold get.
  erewrite bind_returned; [|by erewrite bind_returned by by apply all_ok].
  destruct (filter _ (notes db)) as [|n rows]; [done|]. simpl.
  unfold getNoteTags.
  erewrite bind_returned;
    [|by erewrite bind_returned by by apply getNoteTagsBatch_ok].
  done.
Qed.

Lemma listNotesByTag_ok env db tag tr :
  database env = inr db → fault db = None →
  ∃ tagsByNote,
    listNotesByTag env tag tr =
    (Returned (with_tags tagsByNote ∘ columns false false <$>
               list_by_tag_source tag db), tr).
Proof.
  intros Hdb Hf. eexists. unfold listNotesByTag.
  erewrite bind_returned by by apply getDatabase_ok.
  apply try_catch_returned.
  erewrite bind_returned by by apply all_ok.
  erewrite bind_returned by by apply getNoteTagsBatch_ok.
  by rewrite <- list_fmap_compose.
Qed.

Lemma listArchivedNotes_ok env db tr :
  database env = inr db → fault db = None →
  ∃ tagsByNote,
    listArchivedNotes env tr =
    (Returned (with_tags tagsByNote ∘ columns false false <$>
               archived_source db), tr).
Proof.
  intros Hdb Hf. eexists. unfold listArchivedNotes.
  erewrite bind_returned by by apply getDatabase_ok.
  apply try_catch_returned.
  erewrite bind_returned by by apply all_ok.
  erewrite bind_returned by by apply getNoteTagsBatch_ok.
  by rewrite <- list_fmap_compose.
Qed.

Lemma search_rows_source term tag db :
  ∃ with_content src,
    search_rows term tag db = columns with_content true <$> src ∧
    ∀ n, n ∈ src → n ∈ notes db ∧ live n.
Proof.
  unfold search_rows. destruct tag as [[|c tag]|], term as [[|c' term]|];
    first [ exists true, (search_by_tag_source ("%" +:+ String c tag +:+ "%") db);
            split; [done|]; intros n Hn;
            by destruct (search_by_tag_source_spec _ _ _ Hn) as (? & ? & _)
          | exists true, (search_by_text_source ("%" +:+ String c' term +:+ "%")
                            ("%" +:+ String c' term +:+ "%") db);
            split; [done|]; unfold search_by_text_source;
            intros n [[_ ?] ?]%ordered_limit_subseteq%list_elem_of_filter; done
          | exists false, (recent_notes_source db);
            split; [done|]; apply recent_notes_source_spec ].
Qed.

Lemma list_by_tag_source_subseteq tag db n :
  n ∈ list_by_tag_source tag db → n ∈ notes db.
Proof.
  unfold list_by_tag_source.
  intros Hn%ordered_limit_subseteq%DISTINCT_subseteq.
  apply list_elem_of_bind in Hn as (n' & Hn & Hn').
  apply list_elem_of_bind in Hn as (nt & Hn & _).
  apply list_elem_of_bind in Hn as (t & Hn & _).
  case_decide; [|by apply elem_of_nil in Hn].
  by apply list_elem_of_singleton in Hn as ->.
Qed.

Lemma archived_source_subseteq db n :
  n ∈ archived_source db → n ∈ notes db.
Proof.
  unfold archived_source.
  by intros [_ ?]%ordered_limit_subseteq%list_elem_of_filter.
Qed.

Lemma handler_returns {A} (m : IO A) env (k : A → IO ToolResult) tr :
  (∀ a tr1, ∃ result tr2, k a tr1 = (Returned result, tr2)) →
  ∃ result tr', try_catch (m ≫= k) (handleError env) tr = (Returned result, tr').
Proof.
  intros Hk. unfold try_catch, mbind, IO_bind, bind.
  destruct (m tr) as [[a|e] tr1].
  - destruct (Hk a tr1) as (result & tr2 & ->). eauto.
  - unfold handleError, mbind, IO_bind, bind.
    destruct (logger_run env error "Tool execution failed" tr1)
      as (lines & -> & _). eauto.
Qed.

(** A failure of the driver reaches the caller of [getNoteContent] as a
    [DatabaseError] that carries it as its cause. *)
Lemma getNoteContent_fault env db noteId tr e :
  database env = inr db → fault db = Some e →
  ∃ tr', getNoteContent env noteId tr =
         (Threw (DatabaseError "Failed to get note content" (Some e)), tr').
Proof.
  intros Hdb Hf. unfold getNoteContent.
  erewrite bind_returned by by apply getDatabase_ok.
  erewrite try_catch_threw.
  - destruct (logger_run env error "Failed to get note" tr) as (lines & Hlog & _).
    erewrite bind_returned by exact Hlog. by eexists.
  - apply bind_threw. unfold get. apply bind_threw. unfold all. by rewrite Hf.
Qed.

(** C4: for an identifier that no row of the store carries,
    [getNoteContent] returns [null] and the handler answers with the
    payload "Note not found: <id>" (flagged [isError]); and whatever the
    environment, store failures included, the handler returns a payload
    and throws nothing. *)
Theorem get_note_not_found env noteId tr :
  (∀ db, database env = inr db → fault db = None →
     (∀ n, n ∈ notes db → ZSFNOTE.ZUNIQUEIDENTIFIER n ≠ noteId) →
     getNoteContent env noteId tr = (Returned None, tr) ∧
     bear_get_note env noteId tr =
       (Returned {| content := [Text ("Note not found: " +:+ noteId)];
                    isError := true |}, tr)) ∧
  (∃ result tr', bear_get_note env noteId tr = (Returned result, tr')).
Proof.
  split.
  - intros db Hdb Hf Habsent.
    assert (getNoteContent env noteId tr = (Returned None, tr)) as Hget.
    { rewrite (getNoteContent_ok env db) by done.
      destruct (filter _ (notes db)) as [|n rows] eqn:Hrows; [done|].
      assert (n ∈ filter (λ n, ZSFNOTE.ZUNIQUEIDENTIFIER n = noteId) (notes db))
        as [Hid Hn]%list_elem_of_filter by (rewrite Hrows; apply list_elem_of_here).
      by destruct (Habsent n Hn). }
    split; [done|]. unfold bear_get_note. apply try_catch_returned.
    by erewrite bind_returned by exact Hget.
  - apply handler_returns. intros [note|] tr1; eauto.
Qed.

Lemma get_note_not_found_witness :
  getNoteContent sample_env "Z" [] = (Returned None, []) ∧
  bear_get_note sample_env "Z" [] =
    (Returned {| content := [Text "Note not found: Z"]; isError := true |}, []).
Proof.
  apply (get_note_not_found sample_env "Z" [] : _ ∧ _) with sample_store.
  - reflexivity.
  - reflexivity.
  - intros n Hn. simpl in Hn.
    repeat (apply elem_of_cons in Hn as [->|Hn]; [discriminate|]).
    by apply elem_of_nil in Hn.
Defined.

Lemma fetched_note_shows db noteId n : shows (fetched_note db noteId n) n.
Proof. by repeat split. Qed.

Lemma with_tags_shows tagsByNote n :
  shows (with_tags tagsByNote (columns false false n)) n.
Proof. by repeat split. Qed.

Lemma getNoteContent_found env db noteId n tr :
  database env = inr db → fault db = None →
  n ∈ notes db → ZSFNOTE.ZUNIQUEIDENTIFIER n = noteId →
  ∃ n', n' ∈ notes db ∧ ZSFNOTE.ZUNIQUEIDENTIFIER n' = noteId ∧
        getNoteContent env noteId tr =
        (Returned (Some (fetched_note db noteId n')), tr).
Proof.
  intros Hdb Hf Hn Hid. rewrite (getNoteContent_ok env db) by done.
  destruct (filter _ (notes db)) as [|n' rows] eqn:Hrows.
  - assert (n ∈ filter (λ n, ZSFNOTE.ZUNIQUEIDENTIFIER n = noteId) (notes db))
      as Hin by by apply list_elem_of_filter.
    rewrite Hrows in Hin. by apply elem_of_nil in Hin.
  - assert (n' ∈ filter (λ n, ZSFNOTE.ZUNIQUEIDENTIFIER n = noteId) (notes db))
      as [? ?]%list_elem_of_filter by (rewrite Hrows; apply list_elem_of_here).
    by exists n'.
Qed.

(** Every note that a read operation returns shows a row of the store
    with both timestamps converted: [createdAt] and [modifiedAt] are
    [datetime(_, 'unixepoch')] of the stored value plus 978307200
    seconds. This holds for the note fetched by identifier, for every
    search, and for the two listings. The stored value is a whole number
    of seconds here. *)
Theorem timestamps_converted env db tr :
  database env = inr db → fault db = None →
  (∀ noteId n, n ∈ notes db → ZSFNOTE.ZUNIQUEIDENTIFIER n = noteId →
     ∃ note n', getNoteContent env noteId tr = (Returned (Some note), tr) ∧
       n' ∈ notes db ∧ ZSFNOTE.ZUNIQUEIDENTIFIER n' = noteId ∧
       Note.createdAt note =
         datetime_unixepoch (ZSFNOTE.ZCREATIONDATE n' + 978307200) ∧
       Note.modifiedAt note =
         datetime_unixepoch (ZSFNOTE.ZMODIFICATIONDATE n' + 978307200)) ∧
  (∀ term tag, ∃ found rows,
     searchNotes env term tag tr = (Returned found, tr) ∧
     Forall2 (λ note n, n ∈ notes db ∧ shows note n) found rows) ∧
  (∀ tag, ∃ found rows,
     listNotesByTag env tag tr = (Returned found, tr) ∧
     Forall2 (λ note n, n ∈ notes db ∧ shows note n) found rows) ∧
  (∃ found rows,
     listArchivedNotes env tr = (Returned found, tr) ∧
     Forall2 (λ note n, n ∈ notes db ∧ shows note n) found rows).
Proof.
  intros Hdb Hf. split_and!.
  - intros noteId n Hn Hid.
    destruct (getNoteContent_found env db noteId n tr Hdb Hf Hn Hid)
      as (n' & Hn' & Hid' & Hrun).
    by exists (fetched_note db noteId n'), n'.
  - intros term tag.
    destruct (search_rows_source term tag db) as (wc & src & Hrows & Hsrc).
    eexists _, src. split; [by apply searchNotes_ok|].
    rewrite Hrows, <- !list_fmap_compose.
    apply Forall2_fmap_l, Forall_Forall2_diag, Forall_forall.
    intros n [Hn _]%Hsrc. split; [done|]. apply search_result_shows.
  - intros tag.
    destruct (listNotesByTag_ok env db tag tr Hdb Hf) as (tagsByNote & Hrun).
    eexists _, (list_by_tag_source tag db). split; [exact Hrun|].
    apply Forall2_fmap_l, Forall_Forall2_diag, Forall_forall.
    intros n Hn%list_by_tag_source_subseteq. split; [done|].
    apply with_tags_shows.
  - destruct (listArchivedNotes_ok env db tr Hdb Hf) as (tagsByNote & Hrun).
    eexists _, (archived_source db). split; [exact Hrun|].
    apply Forall2_fmap_l, Forall_Forall2_diag, Forall_forall.
    intros n Hn%archived_source_subseteq. split; [done|].
    apply with_tags_shows.
Qed.

Lemma sample_store_has_A :
  ZSFNOTE.mk 1 "A" "Project Plan" "body a" 0 100 0 0 ∈ notes sample_store.
Proof. apply list_elem_of_here. Defined.

Lemma timestamps_converted_witness :
  ∃ note n',
    getNoteContent sample_env "A" [] = (Returned (Some note), []) ∧
    n' ∈ notes sample_store ∧ ZSFNOTE.ZUNIQUEIDENTIFIER n' = "A" ∧
    Note.createdAt note =
      datetime_unixepoch (ZSFNOTE.ZCREATIONDATE n' + 978307200) ∧
    Note.modifiedAt note =
      datetime_unixepoch (ZSFNOTE.ZMODIFICATIONDATE n' + 978307200).
Proof.
  apply (timestamps_converted sample_env sample_store [] eq_refl eq_refl)
    with (ZSFNOTE.mk 1 "A" "Project Plan" "body a" 0 100 0 0).
  - exact sample_store_has_A.
  - reflexivity.
Defined.

(** The Core Data epoch, offset 0 in the store, reads 2001-01-01. *)
Example core_data_epoch :
  datetime_unixepoch (0 + CORE_DATA_EPOCH_OFFSET) = Some "2001-01-01 00:00:00".
Proof. reflexivity. Qed.

Example fetched_note_C :
  getNoteContent sample_env "C" [] =
  (Returned (Some {| Note.id := "C";
                     Note.title := "Groceries";
                     Note.content := Some "milk";
                     Note.tags := Some ["Home"; "work"];
                     Note.createdAt := Some "2001-01-01 00:00:10";
                     Note.modifiedAt := Some "2001-01-01 00:05:00";
                     Note.isTrashed := Some false |}), []).
Proof. vm_compute. reflexivity. Qed.



(** ** getAllTags *)

Lemma getAllTags_ok env db tr :
  database env = inr db → fault db = None →
  getAllTags env tr = (Returned (all_tags_query db), tr).
Proof.
  intros Hdb Hf. unfold getAllTags.
  erewrite bind_returned by by apply getDatabase_ok.
  apply try_catch_returned. by apply all_ok.
Qed.

Lemma elem_of_LEFT_JOIN {A} (rows : list A) (on : A → Prop)
    `{∀ r, Decision (on r)} x :
  Some x ∈ LEFT_JOIN rows on ↔ on x ∧ x ∈ rows.
Proof.
  unfold LEFT_JOIN. destruct (filter on rows) as [|r matching] eqn:Hm.
  - split.
    + intros [?|?%elem_of_nil]%elem_of_cons; done.
    + intros Hx. apply (list_elem_of_filter on) in Hx. rewrite Hm in Hx.
      by apply elem_of_nil in Hx.
  - rewrite <- Hm, list_elem_of_fmap, <- list_elem_of_filter. split.
    + by intros (? & [= ->] & ?).
    + intros ?. by exists x.
Qed.

Lemma elem_of_tag_note_rows db t n :
  (t, Some n) ∈ tag_note_rows db ↔
  t ∈ tags db ∧ n ∈ notes db ∧
  ∃ nt, nt ∈ note_tags db ∧
        ZSFNOTETAG.Z_PK t = Z_5TAGS.Z_13TAGS nt ∧
        Z_5TAGS.Z_5NOTES nt = ZSFNOTE.Z_PK n.
Proof.
  unfold tag_note_rows. rewrite list_elem_of_bind. split.
  - intros (t' & Hrow & Ht).
    apply list_elem_of_bind in Hrow as (nt & Hrow & Hnt).
    apply list_elem_of_bind in Hrow as (n' & Hrow & Hn).
    apply list_elem_of_singleton in Hrow. injection Hrow as <- <-.
    destruct nt as [nt|].
    + apply elem_of_LEFT_JOIN in Hnt as [? ?].
      apply elem_of_LEFT_JOIN in Hn as [? ?]. split_and!; [done..|].
      by exists nt.
    + apply list_elem_of_singleton in Hn. done.
  - intros (Ht & Hn & nt & Hnt & Hj1 & Hj2). exists t. split; [|done].
    apply list_elem_of_bind. exists (Some nt).
    split; [|by apply elem_of_LEFT_JOIN].
    apply list_elem_of_bind. exists (Some n).
    split; [by apply list_elem_of_singleton|]. by apply elem_of_LEFT_JOIN.
Qed.

Lemma bears_iff db name n :
  bears db name n ↔
  ∃ t nt, t ∈ tags db ∧ nt ∈ note_tags db ∧
    ZSFNOTETAG.ZTITLE t = name ∧
    ZSFNOTETAG.Z_PK t = Z_5TAGS.Z_13TAGS nt ∧
    Z_5TAGS.Z_5NOTES nt = ZSFNOTE.Z_PK n.
Proof.
  unfold bears. rewrite Exists_exists. split.
  - intros (t & Ht & Hname & (nt & Hnt & ? & ?)%Exists_exists).
    by exists t, nt.
  - intros (t & nt & Ht & Hnt & Hname & ? & ?). exists t. split_and!; [done..|].
    apply Exists_exists. by exists nt.
Qed.

(** The aggregate of one group against the count the specification
    words: they agree when [Z_PK] is the primary key of the notes. *)
Lemma group_count_exact db name :
  NoDup (ZSFNOTE.Z_PK <$> notes db) →
  COUNT_DISTINCT
    ((λ r, live_pk r.2) <$>
     filter (λ r, ZSFNOTETAG.ZTITLE r.1 = name) (tag_note_rows db)) =
  qualifying_note_count db name.
Proof.
  intros Hpk. unfold COUNT_DISTINCT, qualifying_note_count.
  rewrite <- (length_fmap ZSFNOTE.Z_PK (filter _ (notes db))).
  apply Permutation_length, NoDup_Permutation.
  - apply NoDup_remove_dups.
  - eapply sublist_NoDup; [exact Hpk|]. apply fmap_sublist, sublist_filter.
  - intros pk. rewrite elem_of_remove_dups, list_elem_of_omap, list_elem_of_fmap.
    split.
    + intros (v & (r & -> & [Hname Hr]%list_elem_of_filter)%list_elem_of_fmap & Hv).
      destruct r as [t [n|]]; simpl in *; [|done].
      case_decide as Hlive; [|done]. injection Hv as <-.
      apply elem_of_tag_note_rows in Hr as (Ht & Hn & nt & Hnt & ? & ?).
      exists n. split; [done|]. apply list_elem_of_filter.
      split; [|done]. split; [done|]. apply bears_iff. by exists t, nt.
    + intros (n & -> & [[Hlive Hb] Hn]%list_elem_of_filter).
      apply bears_iff in Hb as (t & nt & Ht & Hnt & Hname & ? & ?).
      exists (Some (ZSFNOTE.Z_PK n)). split; [|done].
      apply list_elem_of_fmap. exists (t, Some n). split.
      * simpl. by rewrite decide_True.
      * apply list_elem_of_filter. split; [done|].
        apply elem_of_tag_note_rows. split_and!; [done..|]. by exists nt.
Qed.

(** C6: [getAllTags] lists exactly the tag names borne by at least one
    live (non-trashed, non-archived) note, each once, with the number of
    such notes as its count, in ascending order of name; no entry has
    count 0. [Z_PK] is the primary key of the notes relation. *)
Theorem list_tags_exact env db tr :
  database env = inr db → fault db = None →
  NoDup (ZSFNOTE.Z_PK <$> notes db) →
  ∃ listed,
    getAllTags env tr = (Returned listed, tr) ∧
    (∀ entry, entry ∈ listed ↔
       Tag.noteCount entry = qualifying_note_count db (Tag.name entry) ∧
       (0 < Tag.noteCount entry)%nat) ∧
    StronglySorted tag_name_asc listed ∧
    NoDup (Tag.name <$> listed).
Proof.
  intros Hdb Hf Hpk. exists (all_tags_query db).
  split; [by apply getAllTags_ok|]. unfold all_tags_query. split_and!.
  - intros entry. rewrite merge_sort_Permutation, list_elem_of_filter,
      list_elem_of_fmap. split.
    + intros (Hpos & name & -> & _). simpl in *.
      by rewrite group_count_exact in *.
    + intros [Hcount Hpos]. split; [done|]. exists (Tag.name entry). split.
      { destruct entry as [name count]. simpl in *.
        by rewrite group_count_exact, Hcount. }
      rewrite Hcount in Hpos. unfold qualifying_note_count in Hpos.
      destruct (filter _ (notes db)) as [|n rest] eqn:Hq; [simpl in Hpos; lia|].
      assert (n ∈ filter (λ n, live n ∧ bears db (Tag.name entry) n) (notes db))
        as [[_ Hb] Hn]%list_elem_of_filter by (rewrite Hq; apply list_elem_of_here).
      apply bears_iff in Hb as (t & nt & Ht & Hnt & Hname & ? & ?).
      apply elem_of_remove_dups, list_elem_of_fmap. exists (t, Some n).
      split; [done|]. apply elem_of_tag_note_rows. split_and!; [done..|].
      by exists nt.
  - apply StronglySorted_merge_sort; apply _.
  - rewrite merge_sort_Permutation.
    eapply sublist_NoDup; [|apply fmap_sublist, sublist_filter].
    rewrite <- list_fmap_compose.
    rewrite (list_fmap_ext _ id) by done. rewrite list_fmap_id.
    apply NoDup_remove_dups.
Qed.

Lemma list_tags_exact_witness :
  ∃ listed,
    getAllTags sample_env [] = (Returned listed, []) ∧
    (∀ entry, entry ∈ listed ↔
       Tag.noteCount entry = qualifying_note_count sample_store (Tag.name entry) ∧
       (0 < Tag.noteCount entry)%nat) ∧
    StronglySorted tag_name_asc listed ∧
    NoDup (Tag.name <$> listed).
Proof.
  apply (list_tags_exact sample_env sample_store []).
  - reflexivity.
  - reflexivity.
  - apply (bool_decide_unpack _). vm_compute. exact I.
Defined.

Example list_tags_sample :
  getAllTags sample_env [] =
  (Returned [ {| Tag.name := "Home"; Tag.noteCount := 1 |};
              {| Tag.name := "abc"; Tag.noteCount := 1 |};
              {| Tag.name := "work"; Tag.noteCount := 2 |} ], []).
Proof. vm_compute. reflexivity. Qed.

(** * Properties of the rest of the code *)

(** ** Write path, continued *)

Lemma write_op_dispatches_once env action params message :
  dispatches_once env
    (callBearUrl env action params;; logger env info message) action params.
Proof.
  intros tr.
  destruct (callBearUrl_run env action params tr) as (lines & Hlines & Hrun).
  unfold mbind, IO_bind, bind. rewrite Hrun.
  destruct (execFileOpen env (bearUrl action params)) as [cause|].
  - by exists lines.
  - destruct (logger_run env info message
                (tr ++ ExecOpen (bearUrl action params) :: lines))
      as (lines' & -> & Hlines').
    exists (lines ++ lines'). split; [by apply Forall_app|].
    by rewrite <- app_assoc.
Qed.

(** X1: on well-formed arguments (no lone surrogate, for which the URL
    cannot be built) every write operation runs [open] exactly once, on
    the URL of its action and parameters, in every environment; it
    returns when the run succeeds and throws the [BearError] of the
    action otherwise. Without tags (none given, or an empty list)
    [createNote] passes the body text on unchanged. *)
Theorem write_operations_dispatch_once env noteId title text :
  well_formed noteId → well_formed title → well_formed text →
  dispatches_once env (createNote env title text None)
    "create" [("title", title); ("text", text)] ∧
  dispatches_once env (createNote env title text (Some []))
    "create" [("title", title); ("text", text)] ∧
  dispatches_once env (appendToNote env noteId text)
    "add-text" [("id", noteId); ("text", text); ("mode", "append")] ∧
  dispatches_once env (trashNote env noteId) "trash" [("id", noteId)] ∧
  dispatches_once env (archiveNote env noteId) "archive" [("id", noteId)] ∧
  dispatches_once env (unarchiveNote env noteId) "unarchive" [("id", noteId)].
Proof. intros _ _ _. split_and!; apply write_op_dispatches_once. Qed.

Lemma write_operations_dispatch_once_witness :
  dispatches_once sample_env (createNote sample_env "T" "body" None)
    "create" [("title", "T"); ("text", "body")] ∧
  dispatches_once sample_env (createNote sample_env "T" "body" (Some []))
    "create" [("title", "T"); ("text", "body")] ∧
  dispatches_once sample_env (appendToNote sample_env "A" "body")
    "add-text" [("id", "A"); ("text", "body"); ("mode", "append")] ∧
  dispatches_once sample_env (trashNote sample_env "A") "trash" [("id", "A")] ∧
  dispatches_once sample_env (archiveNote sample_env "A") "archive" [("id", "A")] ∧
  dispatches_once sample_env (unarchiveNote sample_env "A")
    "unarchive" [("id", "A")].
Proof.
  apply (write_operations_dispatch_once sample_env "A" "T" "body");
    reflexivity.
Defined.

Lemma handler_answers_dispatch env (op : IO unit) action params done :
  dispatches_once env op action params →
  answers_dispatch env
    (try_catch (op;; mret (success (Text done))) (handleError env))
    action params done.
Proof.
  intros Hop tr. destruct (Hop tr) as (lines & Hlines & Hrun).
  unfold try_catch, mbind, IO_bind, bind. rewrite Hrun.
  destruct (execFileOpen env (bearUrl action params)) as [cause|].
  - unfold handleError, mbind, IO_bind, bind.
    destruct (logger_run env error "Tool execution failed"
                (tr ++ ExecOpen (bearUrl action params) :: lines))
      as (lines' & -> & Hlines').
    eexists. split; [done|]. exists (lines ++ lines').
    split; [by rewrite <- app_assoc|by apply Forall_app].
  - eexists. split; [done|]. by exists lines.
Qed.

(** X2: on well-formed arguments (no lone surrogate) the handlers of
    the write tools run [open] once and never throw. When the dispatch
    succeeds they answer with their confirmation text; when it fails they
    answer with the error-flagged text "Error: Failed to call Bear
    action: <action>", which names the action and nothing of the
    underlying cause. *)
Theorem write_handlers_answer env noteId title text :
  well_formed noteId → well_formed title → well_formed text →
  answers_dispatch env (bear_create_note env title text None)
    "create" [("title", title); ("text", text)] ("Created note: " +:+ title) ∧
  answers_dispatch env (bear_append env noteId text)
    "add-text" [("id", noteId); ("text", text); ("mode", "append")]
    ("Appended text to note: " +:+ noteId) ∧
  answers_dispatch env (bear_trash_note env noteId)
    "trash" [("id", noteId)] ("Moved note to trash: " +:+ noteId) ∧
  answers_dispatch env (bear_archive_note env noteId)
    "archive" [("id", noteId)] ("Archived note: " +:+ noteId) ∧
  answers_dispatch env (bear_unarchive_note env noteId)
    "unarchive" [("id", noteId)] ("Unarchived note: " +:+ noteId).
Proof.
  intros _ _ _.
  split_and!; apply handler_answers_dispatch, write_op_dispatches_once.
Qed.

Lemma write_handlers_answer_witness :
  answers_dispatch offline_env (bear_create_note offline_env "T" "body" None)
    "create" [("title", "T"); ("text", "body")] ("Created note: " +:+ "T") ∧
  answers_dispatch offline_env (bear_append offline_env "A" "body")
    "add-text" [("id", "A"); ("text", "body"); ("mode", "append")]
    ("Appended text to note: " +:+ "A") ∧
  answers_dispatch offline_env (bear_trash_note offline_env "A")
    "trash" [("id", "A")] ("Moved note to trash: " +:+ "A") ∧
  answers_dispatch offline_env (bear_archive_note offline_env "A")
    "archive" [("id", "A")] ("Archived note: " +:+ "A") ∧
  answers_dispatch offline_env (bear_unarchive_note offline_env "A")
    "unarchive" [("id", "A")] ("Unarchived note: " +:+ "A").
Proof.
  apply (write_handlers_answer offline_env "A" "T" "body"); reflexivity.
Defined.

(** ** The URL of an action *)

Lemma hex_digit_unreserved n : uri_unreserved (hex_digit n) = true.
Proof.
  destruct n as [|p]; [done|].
  do 4 (try destruct p as [p|p|]); done.
Qed.

Lemma append_cons c s t : String c s +:+ t = String c (s +:+ t).
Proof. done. Qed.

Lemma chars_cons c s : chars (String c s) = c :: chars s.
Proof. done. Qed.

(** A percent-encoded value is made of unreserved characters and [%]
    only. *)
Lemma encodeURIComponent_chars s :
  Forall (λ c, uri_unreserved c ∨ c = "%"%char) (chars (encodeURIComponent s)).
Proof.
  induction s as [|c s IH]; simpl; [constructor|].
  rewrite chars_app. apply Forall_app. split; [|done].
  destruct (uri_unreserved c) eqn:Hc.
  - apply Forall_singleton. left. by rewrite Hc.
  - unfold percent_encode. rewrite !chars_cons.
    apply Forall_cons. split; [by right|].
    apply Forall_cons. split; [left; by rewrite hex_digit_unreserved|].
    apply Forall_singleton. left. by rewrite hex_digit_unreserved.
Qed.

Lemma percent_decode_char c t :
  percent_decode
    ((if uri_unreserved c then String c "" else percent_encode c) +:+ t) =
  String c <$> percent_decode t.
Proof. destruct c as [[] [] [] [] [] [] [] []]; reflexivity. Qed.

Lemma percent_decode_encode s :
  percent_decode (encodeURIComponent s) = Some s.
Proof.
  induction s as [|c s IH]; [done|]. simpl.
  by rewrite percent_decode_char, IH.
Qed.

Lemma encodeURIComponent_inj s s' :
  encodeURIComponent s = encodeURIComponent s' → s = s'.
Proof.
  intros H. apply (f_equal percent_decode) in H.
  rewrite !percent_decode_encode in H. by injection H.
Qed.

Lemma append_cancel_l a x y : a +:+ x = a +:+ y → x = y.
Proof.
  induction a as [|c a IH]; [done|]. rewrite !append_cons. by intros [= ?%IH].
Qed.

Lemma append_split_at sep a a' r r' :
  sep ∉ chars a → sep ∉ chars a' →
  a +:+ String sep r = a' +:+ String sep r' → a = a' ∧ r = r'.
Proof.
  revert a'. induction a as [|c a IH]; intros [|c' a'];
    rewrite ?append_cons, ?chars_cons, ?not_elem_of_cons.
  - by intros _ _ [= ->].
  - intros _ [Hc _] [= <- _]. done.
  - intros [Hc _] _ [= -> _]. done.
  - intros [_ Ha] [_ Ha'] [= -> H]. by destruct (IH a' Ha Ha' H) as [-> ->].
Qed.

Lemma ampersand_not_encoded v : "&"%char ∉ chars (encodeURIComponent v).
Proof.
  intros Hin. pose proof (encodeURIComponent_chars v) as Hall.
  rewrite Forall_forall in Hall. by destruct (Hall _ Hin).
Qed.

Lemma encodedParams_inj (params params' : Params) :
  params.*1 = params'.*1 →
  join "&" (map (λ kv, kv.1 +:+ "=" +:+ encodeURIComponent kv.2) params) =
  join "&" (map (λ kv, kv.1 +:+ "=" +:+ encodeURIComponent kv.2) params') →
  params = params'.
Proof.
  revert params'. induction params as [|[k v] params IH];
    intros [|[k' v'] params']; try done.
  intros [= <- Hkeys]. unfold join. simpl.
  destruct params as [|p params], params' as [|p' params']; try done.
  - by intros ?%append_cancel_l%append_cancel_l%encodeURIComponent_inj; subst.
  - rewrite !append_assoc.
    intros H%append_cancel_l%append_cancel_l.
    apply append_split_at in H as [->%encodeURIComponent_inj Hrest];
      [|apply ampersand_not_encoded..].
    f_equal. by apply IH.
Qed.

(** X3: the URL of an action carries its parameter values without loss:
    two parameter lists with the same names that give the same URL are
    the same list. *)
Theorem bearUrl_inj action (params params' : Params) :
  params.*1 = params'.*1 →
  bearUrl action params = bearUrl action params' →
  params = params'.
Proof.
  intros Hkeys H. unfold bearUrl in H.
  by apply append_cancel_l, append_cancel_l, append_cancel_l,
    encodedParams_inj in H.
Qed.

Lemma bearUrl_inj_witness :
  [("id", "A"); ("text", "a&b=c d"); ("mode", "append")] =
  [("id", "A"); ("text", "a&b=c d"); ("mode", "append")].
Proof.
  apply (bearUrl_inj "add-text"
           [("id", "A"); ("text", "a&b=c d"); ("mode", "append")]
           [("id", "A"); ("text", "a&b=c d"); ("mode", "append")]);
    reflexivity.
Defined.

(** A value with separators of its own stays one value of the URL. *)
Example bearUrl_escapes_separators :
  bearUrl "add-text" [("id", "A"); ("text", "a&b=c d"); ("mode", "append")] =
  "bear://x-callback-url/add-text?id=A&text=a%26b%3Dc%20d&mode=append".
Proof. reflexivity. Qed.

(** ** What the read path never does *)

Lemma logs_only_ret {A} (a : A) : logs_only (mret a : IO A).
Proof. intros tr. exists []. by rewrite app_nil_r. Qed.

Lemma logs_only_throw {A} e : logs_only (throw e : IO A).
Proof. intros tr. exists []. by rewrite app_nil_r. Qed.

Lemma logs_only_logger env level message : logs_only (logger env level message).
Proof.
  intros tr. destruct (logger_run env level message tr) as (lines & -> & Hl).
  by exists lines.
Qed.

Lemma logs_only_bind {A B} (m : IO A) (k : A → IO B) :
  logs_only m → (∀ a, logs_only (k a)) → logs_only (m ≫= k).
Proof.
  intros Hm Hk tr. unfold mbind, IO_bind, bind.
  destruct (Hm tr) as (lines & Htr & Hl). destruct (m tr) as [[a|e] tr1].
  - simpl in Htr. subst tr1. destruct (Hk a (tr ++ lines)) as (lines' & -> & Hl').
    exists (lines ++ lines'). by rewrite app_assoc, Forall_app.
  - by exists lines.
Qed.

Lemma logs_only_try_catch {A} (m : IO A) (h : JsError → IO A) :
  logs_only m → (∀ e, logs_only (h e)) → logs_only (try_catch m h).
Proof.
  intros Hm Hh tr. unfold try_catch.
  destruct (Hm tr) as (lines & Htr & Hl). destruct (m tr) as [[a|e] tr1].
  - by exists lines.
  - simpl in Htr. subst tr1. destruct (Hh e (tr ++ lines)) as (lines' & -> & Hl').
    exists (lines ++ lines'). by rewrite app_assoc, Forall_app.
Qed.

Lemma logs_only_getDatabase env : logs_only (getDatabase env).
Proof.
  unfold getDatabase. destruct (database env);
    [apply logs_only_throw|apply logs_only_ret].
Qed.

Lemma logs_only_all {A} db (query : Database → list A) : logs_only (all db query).
Proof.
  unfold all. destruct (fault db); [apply logs_only_throw|apply logs_only_ret].
Qed.

Lemma logs_only_getNoteTagsBatch env noteIds :
  logs_only (getNoteTagsBatch env noteIds).
Proof.
  destruct noteIds; simpl; [apply logs_only_ret|].
  apply logs_only_bind; [apply logs_only_getDatabase|intros db].
  apply logs_only_bind; [apply logs_only_all|intros rows].
  apply logs_only_ret.
Qed.

Ltac logs_only_step :=
  first
    [ apply logs_only_ret | apply logs_only_throw | apply logs_only_logger
    | apply logs_only_getDatabase | apply logs_only_all
    | apply logs_only_getNoteTagsBatch
    | apply logs_only_bind; [|intros ?]
    | apply logs_only_try_catch; [|intros ?]
    | match goal with
      | |- logs_only (match ?x with _ => _ end) => destruct x
      end ].

Lemma logs_only_handleError env e : logs_only (handleError env e).
Proof. unfold handleError. repeat logs_only_step. Qed.

Lemma logs_only_searchNotes env term tag : logs_only (searchNotes env term tag).
Proof. unfold searchNotes. repeat logs_only_step. Qed.

Lemma logs_only_getNoteContent env noteId : logs_only (getNoteContent env noteId).
Proof. unfold getNoteContent, get, getNoteTags. repeat logs_only_step. Qed.

Lemma logs_only_listNotesByTag env tag : logs_only (listNotesByTag env tag).
Proof. unfold listNotesByTag. repeat logs_only_step. Qed.

Lemma logs_only_listArchivedNotes env : logs_only (listArchivedNotes env).
Proof. unfold listArchivedNotes. repeat logs_only_step. Qed.

Lemma logs_only_getAllTags env : logs_only (getAllTags env).
Proof. unfold getAllTags. repeat logs_only_step. Qed.

(** X4: the read tools never run [open]: in every environment, and
    whether the store answers, fails or cannot be reached, the only
    effect of the five read handlers is the writing of log lines. *)
Theorem read_handlers_never_dispatch env term tag noteId :
  logs_only (bear_search env term tag) ∧
  logs_only (bear_get_note env noteId) ∧
  logs_only (bear_list_tags env) ∧
  logs_only (bear_list_by_tag env noteId) ∧
  logs_only (bear_list_archived env).
Proof.
  split_and!;
    (apply logs_only_try_catch; [|apply logs_only_handleError]);
    (apply logs_only_bind; [|intros ?; repeat logs_only_step]).
  - apply logs_only_searchNotes.
  - apply logs_only_getNoteContent.
  - apply logs_only_getAllTags.
  - apply logs_only_listNotesByTag.
  - apply logs_only_listArchivedNotes.
Qed.

(** ** Failures of the store *)

Lemma throws_wrapped {A} env (m : IO A) e line message :
  throws m e →
  throws (try_catch m (λ cause,
            logger env error line;;
            throw (DatabaseError message (Some cause))))
         (DatabaseError message (Some e)).
Proof.
  intros Hm tr. destruct (Hm tr) as (tr1 & Hrun).
  unfold try_catch. rewrite Hrun. unfold mbind, IO_bind, bind.
  destruct (logger_run env error line tr1) as (lines & -> & _). by eexists.
Qed.

Lemma throws_bind {A B} (m : IO A) (k : A → IO B) e :
  throws m e → throws (m ≫= k) e.
Proof.
  intros Hm tr. destruct (Hm tr) as (tr1 & Hrun).
  exists tr1. by apply bind_threw.
Qed.

Lemma throws_all {A} db (query : Database → list A) e :
  fault db = Some e → throws (all db query) e.
Proof. intros Hf tr. exists tr. unfold all. by rewrite Hf. Qed.

Lemma throws_after_getDatabase {A} env db (k : Database → IO A) e :
  database env = inr db → throws (k db) e → throws (getDatabase env ≫= k) e.
Proof.
  intros Hdb Hk tr. destruct (Hk tr) as (tr1 & Hrun). exists tr1.
  by erewrite bind_returned by by apply getDatabase_ok.
Qed.

Lemma answers_thrown {A} env (m : IO A) (k : A → IO ToolResult) e :
  throws m e →
  answers_error (try_catch (m ≫= k) (handleError env)) (error_message e).
Proof.
  intros Hm tr. destruct (Hm tr) as (tr1 & Hrun).
  erewrite try_catch_threw by by apply bind_threw.
  unfold handleError, mbind, IO_bind, bind.
  destruct (logger_run env error "Tool execution failed" tr1)
    as (lines & -> & _). by eexists.
Qed.

Ltac fault_thrown Hdb Hf :=
  eapply throws_after_getDatabase; [exact Hdb|];
  apply throws_wrapped; repeat apply throws_bind; by apply throws_all.

(** X5: when the driver fails on a query, each read operation throws a
    [DatabaseError] with its own message and the failure as cause, and
    its handler answers with the error-flagged text "Error: <message>",
    in which the cause does not appear. *)
Theorem query_failure_is_wrapped env db e term tag noteId :
  database env = inr db → fault db = Some e →
  (throws (searchNotes env term tag)
     (DatabaseError "Failed to search notes" (Some e)) ∧
   answers_error (bear_search env term tag) "Failed to search notes") ∧
  (throws (getNoteContent env noteId)
     (DatabaseError "Failed to get note content" (Some e)) ∧
   answers_error (bear_get_note env noteId) "Failed to get note content") ∧
  (throws (listNotesByTag env noteId)
     (DatabaseError "Failed to list notes by tag" (Some e)) ∧
   answers_error (bear_list_by_tag env noteId) "Failed to list notes by tag") ∧
  (throws (getAllTags env) (DatabaseError "Failed to get tags" (Some e)) ∧
   answers_error (bear_list_tags env) "Failed to get tags") ∧
  (throws (listArchivedNotes env)
     (DatabaseError "Failed to list archived notes" (Some e)) ∧
   answers_error (bear_list_archived env) "Failed to list archived notes").
Proof.
  intros Hdb Hf.
  assert (∀ A (m : IO A) (k : A → IO ToolResult) message cause,
    throws m (DatabaseError message cause) →
    throws m (DatabaseError message cause) ∧
    answers_error (try_catch (m ≫= k) (handleError env)) message) as Hboth.
  { intros A m k message cause Hm. split; [done|].
    apply (answers_thrown env m k _ Hm). }
  split; [|split; [|split; [|split]]]; apply Hboth.
  - unfold searchNotes. fault_thrown Hdb Hf.
  - unfold getNoteContent, get. fault_thrown Hdb Hf.
  - unfold listNotesByTag. fault_thrown Hdb Hf.
  - unfold getAllTags. fault_thrown Hdb Hf.
  - unfold listArchivedNotes. fault_thrown Hdb Hf.
Qed.

Lemma query_failure_is_wrapped_witness :
  throws (searchNotes locked_env None None)
    (DatabaseError "Failed to search notes"
       (Some (SystemError "database is locked"))) ∧
  answers_error (bear_search locked_env None None) "Failed to search notes".
Proof.
  apply (query_failure_is_wrapped locked_env locked_store
           (SystemError "database is locked") None None "A");
    reflexivity.
Defined.

Lemma getDatabase_unreachable {A} env e (k : Database → IO A) tr :
  database env = inl e → (getDatabase env ≫= k) tr = (Threw e, tr).
Proof.
  intros Hdb. apply bind_threw. unfold getDatabase. by rewrite Hdb.
Qed.

(** X6: when the store cannot be reached, the error of the connection
    leaves each read operation as it is: it is not wrapped in the
    operation's own [DatabaseError] and nothing is logged by the
    operation; the handler answers with the message of that error. *)
Theorem connection_error_passes_through env e term tag noteId :
  database env = inl e →
  ((∀ tr, searchNotes env term tag tr = (Threw e, tr)) ∧
   answers_error (bear_search env term tag) (error_message e)) ∧
  ((∀ tr, getNoteContent env noteId tr = (Threw e, tr)) ∧
   answers_error (bear_get_note env noteId) (error_message e)) ∧
  ((∀ tr, listNotesByTag env noteId tr = (Threw e, tr)) ∧
   answers_error (bear_list_by_tag env noteId) (error_message e)) ∧
  ((∀ tr, getAllTags env tr = (Threw e, tr)) ∧
   answers_error (bear_list_tags env) (error_message e)) ∧
  ((∀ tr, listArchivedNotes env tr = (Threw e, tr)) ∧
   answers_error (bear_list_archived env) (error_message e)).
Proof.
  intros Hdb.
  assert (∀ A (m : IO A) (k : A → IO ToolResult),
    (∀ tr, m tr = (Threw e, tr)) →
    (∀ tr, m tr = (Threw e, tr)) ∧
    answers_error (try_catch (m ≫= k) (handleError env)) (error_message e))
    as Hboth.
  { intros A m k Hm. split; [done|]. apply answers_thrown.
    intros tr. by exists tr. }
  split; [|split; [|split; [|split]]]; apply Hboth; intros tr;
    by apply getDatabase_unreachable.
Qed.

Lemma connection_error_passes_through_witness :
  (∀ tr, searchNotes no_store_env None None tr =
         (Threw (DatabaseError
                   "Bear database not found. Make sure Bear is installed and has been opened at least once."
                   None), tr)) ∧
  answers_error (bear_search no_store_env None None)
    "Bear database not found. Make sure Bear is installed and has been opened at least once.".
Proof.
  exact (proj1 (connection_error_passes_through no_store_env
    (DatabaseError
       "Bear database not found. Make sure Bear is installed and has been opened at least once."
       None) None None "A" eq_refl)).
Defined.

(** ** Handlers and logger *)

(** X7: no handler lets an exception escape: in every environment and
    for every input, each of them returns a payload. This holds also for
    [bear_replace_content], whose call of [replaceNoteContent] may throw
    a TypeError. *)
Theorem handlers_never_throw env term tag noteId title text tags :
  always_answers (bear_create_note env title text tags) ∧
  always_answers (bear_search env term tag) ∧
  always_answers (bear_get_note env noteId) ∧
  always_answers (bear_append env noteId text) ∧
  always_answers (bear_replace_content env noteId title text tags) ∧
  always_answers (bear_list_tags env) ∧
  always_answers (bear_list_by_tag env noteId) ∧
  always_answers (bear_trash_note env noteId) ∧
  always_answers (bear_archive_note env noteId) ∧
  always_answers (bear_unarchive_note env noteId) ∧
  always_answers (bear_list_archived env).
Proof.
  split_and!; intros tr; apply handler_returns; intros a tr1;
    try destruct a; by eexists _, _.
Qed.

Lemma getLogLevel_debug env : getLogLevel env = debug → env = Some "debug".
Proof.
  unfold getLogLevel. repeat (case_match; try done).
Qed.

(** X8: error lines are written whatever [BEAR_MCP_LOG_LEVEL] is, set or
    not; debug lines are written exactly when it is the text [debug]. *)
Theorem logger_thresholds env message tr :
  logger env error message tr = (Returned tt, tr ++ [Logged error message]) ∧
  logger env debug message tr =
    (Returned tt,
     if decide (BEAR_MCP_LOG_LEVEL env = Some "debug")
     then tr ++ [Logged debug message] else tr).
Proof.
  unfold logger. split.
  - by destruct (getLogLevel (BEAR_MCP_LOG_LEVEL env)).
  - case_decide as Hlevel.
    + by rewrite Hlevel.
    + destruct (getLogLevel (BEAR_MCP_LOG_LEVEL env)) eqn:Hget; try done.
      by apply getLogLevel_debug in Hget.
Qed.

(** ** More on lists *)

Lemma StronglySorted_filter {A} (R : relation A) (P : A → Prop)
    `{∀ x, Decision (P x)} l :
  StronglySorted R l → StronglySorted R (filter P l).
Proof.
  induction 1 as [|x l Hl IH Hx]; [constructor|].
  rewrite filter_cons. case_decide; [|done].
  constructor; [done|]. apply Forall_forall.
  intros y [_ Hy]%list_elem_of_filter. rewrite Forall_forall in Hx. auto.
Qed.

Lemma NoDup_fmap_eq {A B} (f : A → B) l x y :
  NoDup (f <$> l) → x ∈ l → y ∈ l → f x = f y → x = y.
Proof.
  induction l as [|z l IH]; csimpl; [by intros _ ?%elem_of_nil|].
  intros [Hz Hl]%NoDup_cons [->|Hx]%elem_of_cons [->|Hy]%elem_of_cons Hf;
    [done| | |by apply IH].
  - destruct Hz. rewrite Hf. by apply list_elem_of_fmap_2.
  - destruct Hz. rewrite <- Hf. by apply list_elem_of_fmap_2.
Qed.

Lemma DISTINCT_NoDup {A K} `{EqDecision K} (select : A → K) seen rows :
  NoDup (select <$> DISTINCT select seen rows) ∧
  ∀ r, r ∈ DISTINCT select seen rows → select r ∉ seen.
Proof.
  revert seen. induction rows as [|r rows IH]; intros seen; simpl.
  - split; [constructor|]. by intros r ?%elem_of_nil.
  - case_decide as Hseen; [apply IH|].
    destruct (IH (select r :: seen)) as [Hnd Hout]. split.
    + csimpl. constructor; [|done].
      intros (r' & Heq & Hr')%list_elem_of_fmap.
      apply Hout in Hr'. apply Hr'. rewrite Heq. left.
    + intros r' [->|Hr']%elem_of_cons; [done|].
      apply Hout in Hr'. intros ?. apply Hr'. by right.
Qed.

(** A row that ORDER BY ... DESC LIMIT leaves out is there because the
    limit is reached, and it is no more recent than any row kept. *)
Lemma ordered_limit_top n rows x :
  x ∈ rows → x ∉ LIMIT n (ORDER_BY_ZMODIFICATIONDATE_DESC rows) →
  length (LIMIT n (ORDER_BY_ZMODIFICATIONDATE_DESC rows)) = n ∧
  ∀ r, r ∈ LIMIT n (ORDER_BY_ZMODIFICATIONDATE_DESC rows) → modified_desc r x.
Proof.
  unfold LIMIT, ORDER_BY_ZMODIFICATIONDATE_DESC.
  set (sorted := merge_sort modified_desc rows).
  intros Hx Hout.
  assert (StronglySorted modified_desc sorted) as Hsorted
    by (apply StronglySorted_merge_sort; apply _).
  assert (x ∈ sorted) as Hin by (unfold sorted; by rewrite merge_sort_Permutation).
  rewrite <- (take_drop n sorted) in Hin, Hsorted.
  apply elem_of_app in Hin as [?|Hdrop]; [done|].
  apply StronglySorted_app in Hsorted as (Hle & _ & _). split; [|by auto].
  apply length_take_le.
  destruct (decide (n ≤ length sorted)%nat) as [|Hshort]; [done|].
  rewrite drop_ge in Hdrop by lia. by apply elem_of_nil in Hdrop.
Qed.

(** Below the limit nothing is left out. *)
Lemma ordered_limit_all n rows x :
  (length (LIMIT n (ORDER_BY_ZMODIFICATIONDATE_DESC rows)) < n)%nat →
  x ∈ rows → x ∈ LIMIT n (ORDER_BY_ZMODIFICATIONDATE_DESC rows).
Proof.
  intros Hlen Hx.
  destruct (decide (x ∈ LIMIT n (ORDER_BY_ZMODIFICATIONDATE_DESC rows)))
    as [|Hout]; [done|].
  apply ordered_limit_top in Hout as [? _]; [lia|done].
Qed.

Lemma ordered_limit_NoDup n rows :
  NoDup rows → NoDup (LIMIT n (ORDER_BY_ZMODIFICATIONDATE_DESC rows)).
Proof.
  intros Hnd. unfold LIMIT, ORDER_BY_ZMODIFICATIONDATE_DESC.
  eapply sublist_NoDup; [|apply sublist_take].
  by rewrite merge_sort_Permutation.
Qed.

(** ** Tags of a note *)

Lemma foldl_push_tag_nonempty rows (result : gmap string (list string)) noteId :
  result !! noteId ≠ Some [] →
  foldl push_tag result rows !! noteId ≠ Some [].
Proof.
  revert result. induction rows as [|row rows IH]; intros result Hne; [done|].
  simpl. apply IH. unfold push_tag.
  destruct (decide (row.1 = noteId)) as [->|Hother].
  - rewrite lookup_insert_eq. intros [= H]. by apply app_nil in H as [_ [=]].
  - by rewrite lookup_insert_ne.
Qed.

(** X9: for a store that answers and identifiers that are no inherited
    property names, [getNoteTagsBatch] returns an object in which the
    tags of each such identifier are in ascending order of name and are
    exactly the names of the tag rows linked to a note row of that
    identifier, provided the identifier was asked for; no such key holds
    an empty list. *)
Theorem note_tags_resolved env db noteIds tr :
  database env = inr db → fault db = None →
  Forall plain_identifier noteIds →
  ∃ tagsByNote,
    getNoteTagsBatch env noteIds tr = (Returned tagsByNote, tr) ∧
    ∀ noteId,
      plain_identifier noteId →
      StronglySorted String.le (default [] (tagsByNote !! noteId)) ∧
      (∀ name, name ∈ default [] (tagsByNote !! noteId) ↔
         noteId ∈ noteIds ∧
         ∃ n t, n ∈ notes db ∧ t ∈ tags db ∧ linked db n t ∧
                ZSFNOTE.ZUNIQUEIDENTIFIER n = noteId ∧
                ZSFNOTETAG.ZTITLE t = name) ∧
      tagsByNote !! noteId ≠ Some [].
Proof.
  intros Hdb Hf _. eexists. split; [by apply getNoteTagsBatch_ok|].
  intros noteId _. split_and!.
  - rewrite foldl_push_tag, lookup_empty. simpl.
    apply (StronglySorted_fmap snd name_asc); [done|].
    apply StronglySorted_filter. unfold note_tag_rows.
    apply StronglySorted_merge_sort; apply _.
  - intros name.
    pose proof (elem_of_resolved_tags db noteIds noteId name) as Hres.
    unfold resolved_tags in Hres. rewrite Hres. unfold linked. split.
    + intros (t & nt & n & ? & ? & ? & ? & ? & ? & ? & ?).
      split; [done|]. exists n, t. split_and!; try done. by exists nt.
    + intros (? & n & t & ? & ? & (nt & ? & ? & ?) & ? & ?).
      by exists t, nt, n.
  - apply foldl_push_tag_nonempty. by rewrite lookup_empty.
Qed.

Lemma plain_identifiers_A_C : Forall plain_identifier ["A"; "C"].
Proof. apply (bool_decide_unpack _). vm_compute. exact I. Defined.

Lemma note_tags_resolved_witness :
  ∃ tagsByNote,
    getNoteTagsBatch sample_env ["A"; "C"] [] = (Returned tagsByNote, []) ∧
    ∀ noteId,
      plain_identifier noteId →
      StronglySorted String.le (default [] (tagsByNote !! noteId)) ∧
      (∀ name, name ∈ default [] (tagsByNote !! noteId) ↔
         noteId ∈ ["A"; "C"] ∧
         ∃ n t, n ∈ notes sample_store ∧ t ∈ tags sample_store ∧
                linked sample_store n t ∧
                ZSFNOTE.ZUNIQUEIDENTIFIER n = noteId ∧
                ZSFNOTETAG.ZTITLE t = name) ∧
      tagsByNote !! noteId ≠ Some [].
Proof.
  apply (note_tags_resolved sample_env sample_store ["A"; "C"] []).
  - reflexivity.
  - reflexivity.
  - exact plain_identifiers_A_C.
Defined.

(** ** Search by text *)

Lemma like_literal_match literal pattern matched rest :
  Forall (λ c, ¬ like_wildcard c) literal →
  lower_ascii <$> matched = lower_ascii <$> literal →
  like_chars pattern rest →
  like_chars (literal ++ pattern) (matched ++ rest).
Proof.
  intros Hlit. revert matched.
  induction Hlit as [|p literal Hp _ IH]; intros [|c matched] Hm Hrest;
    try done.
  simpl. case_decide as Hpc; [by destruct Hp; left|].
  injection Hm as Hc Hm.
  rewrite andb_True, orb_True, !bool_decide_spec. split; [by right|by apply IH].
Qed.

(** Without wildcards in [needle], the pattern [%needle%] matches the
    strings that contain [needle] up to ASCII case, and no others. *)
Lemma LIKE_substring_iff needle s :
  wildcard_free needle →
  LIKE s ("%" +:+ needle +:+ "%") ↔ contains_ci needle s.
Proof.
  intros Hfree. split; [by apply LIKE_substring_pattern|].
  intros (before & after & Hs). unfold LIKE. rewrite !chars_app.
  change (chars "%") with ["%"%char].
  apply fmap_app_inv in Hs as (s1 & s23 & -> & H23 & ->).
  symmetry in H23. apply fmap_app_inv in H23 as (s2 & s3 & Hm & -> & ->).
  apply like_percent. exists s1, (s2 ++ s3). split; [done|].
  apply like_literal_match; [done..|].
  apply like_percent. exists s3, []. by rewrite app_nil_r.
Qed.

Lemma search_by_text_source_spec term db n :
  wildcard_free term →
  n ∈ filter (λ n, (LIKE (ZSFNOTE.ZTITLE n) ("%" +:+ term +:+ "%") ∨
                    LIKE (ZSFNOTE.ZTEXT n) ("%" +:+ term +:+ "%")) ∧ live n)
             (notes db) ↔
  n ∈ notes db ∧ live n ∧ mentions term n.
Proof.
  intros Hfree. rewrite list_elem_of_filter, !LIKE_substring_iff by done.
  unfold mentions. tauto.
Qed.


Lemma wildcard_free_project : wildcard_free "project".
Proof. repeat constructor; intros [?|?]; discriminate. Defined.


(** The scenario of the specification: of "Project Plan" and the trashed
    "Old project", the search for [project] returns the first only. *)
Example text_search_scenario :
  ∃ found,
    searchNotes sample_env (Some "project") None [] = (Returned found, []) ∧
    Note.title <$> found = ["Project Plan"] ∧
    Note.content <$> found = [None].
Proof. eexists. split; [vm_compute; reflexivity|]. done. Qed.

(** ** Recent notes, and notes returned once *)



Lemma NoDup_joined_source {K} `{EqDecision K} (select : ZSFNOTE.t → K) n rows :
  NoDup (LIMIT n (ORDER_BY_ZMODIFICATIONDATE_DESC (DISTINCT select [] rows))).
Proof.
  apply ordered_limit_NoDup, (NoDup_fmap_1 select), DISTINCT_NoDup.
Qed.

Lemma NoDup_filtered_source (P : ZSFNOTE.t → Prop) `{∀ n, Decision (P n)} k db :
  NoDup (ZSFNOTE.ZUNIQUEIDENTIFIER <$> notes db) →
  NoDup (LIMIT k (ORDER_BY_ZMODIFICATIONDATE_DESC (filter P (notes db)))).
Proof.
  intros Hid. apply ordered_limit_NoDup, NoDup_filter.
  by apply (NoDup_fmap_1 ZSFNOTE.ZUNIQUEIDENTIFIER).
Qed.

Lemma NoDup_identifiers db src :
  NoDup (ZSFNOTE.ZUNIQUEIDENTIFIER <$> notes db) →
  (∀ n, n ∈ src → n ∈ notes db) → NoDup src →
  NoDup (ZSFNOTE.ZUNIQUEIDENTIFIER <$> src).
Proof.
  intros Hid Hsub Hsrc. apply NoDup_fmap_2_strong; [|done].
  intros x y Hx Hy. apply (NoDup_fmap_eq _ (notes db)); auto.
Qed.


Lemma sample_store_identifiers :
  NoDup (ZSFNOTE.ZUNIQUEIDENTIFIER <$> notes sample_store).
Proof. apply (bool_decide_unpack _). vm_compute. exact I. Defined.


(** ** Listing by tag, and the archive *)

Lemma list_by_tag_source_spec tag db n :
  n ∈ list_by_tag_source tag db →
  n ∈ notes db ∧ live n ∧
  ∃ t, t ∈ tags db ∧ linked db n t ∧
       LOWER (ZSFNOTETAG.ZTITLE t) = LOWER tag.
Proof.
  unfold list_by_tag_source.
  intros Hn%ordered_limit_subseteq%DISTINCT_subseteq.
  apply list_elem_of_bind in Hn as (n' & Hn & Hn').
  apply list_elem_of_bind in Hn as (nt & Hn & Hnt).
  apply list_elem_of_bind in Hn as (t & Hn & Ht).
  case_decide as Hc; [|by apply elem_of_nil in Hn].
  apply list_elem_of_singleton in Hn as ->.
  destruct Hc as (? & ? & ? & ?). split_and!; [done..|].
  exists t. split_and!; [done| |done]. by exists nt.
Qed.

Lemma list_by_tag_source_LOWER tag tag' db :
  LOWER tag = LOWER tag' → list_by_tag_source tag db = list_by_tag_source tag' db.
Proof.
  intros Hcase. unfold list_by_tag_source. do 3 f_equal.
  apply list_bind_ext; [intros n|done].
  apply list_bind_ext; [intros nt|done].
  apply list_bind_ext; [intros t|done].
  by rewrite Hcase.
Qed.

Lemma listNotesByTag_run env db tag tr :
  database env = inr db → fault db = None →
  listNotesByTag env tag tr =
  (Returned
     (with_tags
        (foldl push_tag ∅
           (note_tag_rows
              (Row.id <$> (columns false false <$> list_by_tag_source tag db))
              db))
      <$> (columns false false <$> list_by_tag_source tag db)), tr).
Proof.
  intros Hdb Hf. unfold listNotesByTag.
  erewrite bind_returned by by apply getDatabase_ok.
  apply try_catch_returned.
  erewrite bind_returned by by apply all_ok.
  by erewrite bind_returned by by apply getNoteTagsBatch_ok.
Qed.





(** X15: [getNoteContent] applies no filter on the state of a note: when
    no two rows share an identifier, every row of the store, trashed or
    archived or neither, whose identifier is no inherited property name
    is returned for its identifier with its text, and [isTrashed] tells
    whether [ZTRASHED] is non-zero; the handler answers with that note. *)
Theorem get_note_in_any_state env db n tr :
  database env = inr db → fault db = None →
  NoDup (ZSFNOTE.ZUNIQUEIDENTIFIER <$> notes db) →
  n ∈ notes db →
  plain_identifier (ZSFNOTE.ZUNIQUEIDENTIFIER n) →
  ∃ note,
    getNoteContent env (ZSFNOTE.ZUNIQUEIDENTIFIER n) tr =
      (Returned (Some note), tr) ∧
    bear_get_note env (ZSFNOTE.ZUNIQUEIDENTIFIER n) tr =
      (Returned {| content := [JsonNote note]; isError := false |}, tr) ∧
    shows note n ∧
    Note.content note = Some (ZSFNOTE.ZTEXT n) ∧
    Note.isTrashed note = Some (bool_decide (ZSFNOTE.ZTRASHED n ≠ 0)).
Proof.
  intros Hdb Hf Hid Hn _.
  destruct (getNoteContent_found env db _ n tr Hdb Hf Hn eq_refl)
    as (n' & Hn' & Hid' & Hrun).
  assert (n' = n) as -> by by apply (NoDup_fmap_eq _ (notes db)) in Hid'.
  eexists. split; [exact Hrun|]. split_and!; try done.
  unfold bear_get_note. apply try_catch_returned.
  by erewrite bind_returned by exact Hrun.
Qed.

Lemma sample_store_has_B :
  ZSFNOTE.mk 2 "B" "Old project" "b" 5 200 1 0 ∈ notes sample_store.
Proof. apply list_elem_of_further, list_elem_of_here. Defined.

Lemma plain_identifier_B : plain_identifier "B".
Proof. apply (bool_decide_unpack _). vm_compute. exact I. Defined.

Lemma get_note_in_any_state_witness :
  ∃ note,
    getNoteContent sample_env "B" [] = (Returned (Some note), []) ∧
    bear_get_note sample_env "B" [] =
      (Returned {| content := [JsonNote note]; isError := false |}, []) ∧
    shows note (ZSFNOTE.mk 2 "B" "Old project" "b" 5 200 1 0) ∧
    Note.content note = Some "b" ∧
    Note.isTrashed note = Some true.
Proof.
  exact (get_note_in_any_state sample_env sample_store _ [] eq_refl eq_refl
           sample_store_identifiers sample_store_has_B plain_identifier_B).
Defined.

(** ** database.ts *)

Lemma connection_log_run host level message s :
  Connection.log host level message s =
  (Returned tt,
   {| Connection.db := Connection.db s;
      Connection.effects :=
        Connection.effects s ++ connection_log host level message |}).
Proof.
  unfold Connection.log, connection_log. destruct (shouldLog _ _); [done|].
  destruct s. simpl. by rewrite app_nil_r.
Qed.

Lemma probe_run host paths s :
  Connection.probe host paths s =
  match list_find (λ path, Connection.existsSync host path) paths with
  | Some (i, path) =>
      (Returned path,
       {| Connection.db := Connection.db s;
          Connection.effects :=
            Connection.effects s ++
            (Connection.Probed <$> take (S i) paths) ++
            connection_log host info "Found Bear database" |})
  | None =>
      (Threw NOT_FOUND,
       {| Connection.db := Connection.db s;
          Connection.effects :=
            Connection.effects s ++ (Connection.Probed <$> paths) |})
  end.
Proof.
  revert s. induction paths as [|path paths IH]; intros s; simpl.
  - destruct s. simpl. by rewrite app_nil_r.
  - destruct (Connection.existsSync host path) eqn:Hex.
    + rewrite connection_log_run. simpl. by rewrite <- app_assoc.
    + rewrite IH. simpl.
      destruct (list_find _ paths) as [[i p]|]; simpl;
        by rewrite <- app_assoc.
Qed.

(** X16: [findDatabasePath] returns the first candidate path that exists,
    the iCloud container before the local one, after probing the
    candidates up to that one and no further; when none exists it throws
    the "Bear database not found" [DatabaseError], without cause, after
    probing them all. It leaves the connection as it is. *)
Theorem findDatabasePath_first_existing host s :
  Connection.findDatabasePath host s =
  match list_find (λ path, Connection.existsSync host path)
          (Connection.DB_PATHS host) with
  | Some (i, path) =>
      (Returned path,
       {| Connection.db := Connection.db s;
          Connection.effects :=
            Connection.effects s ++
            (Connection.Probed <$> take (S i) (Connection.DB_PATHS host)) ++
            connection_log host info "Found Bear database" |})
  | None =>
      (Threw NOT_FOUND,
       {| Connection.db := Connection.db s;
          Connection.effects :=
            Connection.effects s ++
            (Connection.Probed <$> Connection.DB_PATHS host) |})
  end.
Proof. apply probe_run. Qed.

Example findDatabasePath_local :
  Connection.findDatabasePath local_host initial_state =
  (Returned
     "/Users/me/Library/Containers/net.shinyfrog.bear/Data/Documents/Application Data/database.sqlite",
   {| Connection.db := None;
      Connection.effects :=
        [ Connection.Probed
            "/Users/me/Library/Group Containers/9K33E3U3T4.net.shinyfrog.bear/Application Data/database.sqlite";
          Connection.Probed
            "/Users/me/Library/Containers/net.shinyfrog.bear/Data/Documents/Application Data/database.sqlite";
          Connection.Logged info "Found Bear database" ] |}).
Proof. reflexivity. Qed.

(** X17: the connection is opened once. When [getDatabase] returns a
    handle, the module holds that handle, and every later call returns
    the same handle with no effect at all: no probe, no opening, no log
    line, whatever has become of the file system. *)
Theorem getDatabase_reuses_handle host s handle s' :
  Connection.getDatabase host s = (Returned handle, s') →
  Connection.db s' = Some handle ∧
  ∀ host', Connection.getDatabase host' s' = (Returned handle, s').
Proof.
  intros Hget.
  assert (Connection.db s' = Some handle) as Hdb.
  { unfold Connection.getDatabase in Hget.
    destruct (Connection.db s) as [h|] eqn:Hs; [by injection Hget as -> ->|].
    destruct (Connection.findDatabasePath host s) as [[dbPath|e] s1]; [|done].
    destruct (Connection.openReadonly host dbPath) as [cause|h]; [done|].
    rewrite connection_log_run in Hget. by injection Hget as -> <-. }
  split; [done|]. intros host'. unfold Connection.getDatabase. by rewrite Hdb.
Qed.

Lemma getDatabase_reuses_handle_witness :
  ∃ s',
    Connection.getDatabase local_host initial_state = (Returned sample_store, s') ∧
    Connection.db s' = Some sample_store ∧
    ∀ host', Connection.getDatabase host' s' = (Returned sample_store, s').
Proof.
  eexists. split; [reflexivity|].
  apply (getDatabase_reuses_handle local_host initial_state). reflexivity.
Defined.

(** X18: a failed connection is not remembered. When [getDatabase] throws,
    the error is the "not found" error of [findDatabasePath] or a
    [DatabaseError] "Failed to open Bear database" with the failure of
    the opening as cause, and the module holds no handle afterwards, so
    that the next call probes the file system again. *)
Theorem getDatabase_failure_not_cached host s e s' :
  Connection.getDatabase host s = (Threw e, s') →
  Connection.db s' = None ∧
  (e = NOT_FOUND ∨
   ∃ cause, e = DatabaseError "Failed to open Bear database" (Some cause)).
Proof.
  unfold Connection.getDatabase.
  destruct (Connection.db s) as [h|] eqn:Hs; [done|].
  unfold Connection.findDatabasePath. rewrite probe_run.
  destruct (list_find _ _) as [[i dbPath]|].
  - destruct (Connection.openReadonly host dbPath) as [cause|h]; [|done].
    rewrite connection_log_run. intros [= <- <-]. split; [done|]. right. eauto.
  - intros [= <- <-]. split; [done|]. by left.
Qed.

Lemma getDatabase_failure_not_cached_witness :
  ∃ s',
    Connection.getDatabase bare_host initial_state = (Threw NOT_FOUND, s') ∧
    Connection.db s' = None ∧
    (NOT_FOUND = NOT_FOUND ∨
     ∃ cause, NOT_FOUND =
              DatabaseError "Failed to open Bear database" (Some cause)).
Proof.
  eexists. split; [reflexivity|].
  apply (getDatabase_failure_not_cached bare_host initial_state). reflexivity.
Defined.

(** X19: [closeDatabase] releases the handle once and is idempotent: it
    closes the handle if there is one (one [Closed] effect, then its log
    line), leaves the module without handle, and a second call in a row
    does nothing at all. *)
Theorem closeDatabase_idempotent host s :
  let s1 := (Connection.closeDatabase host s).2 in
  Connection.db s1 = None ∧
  Connection.effects s1 =
    Connection.effects s ++
    (if Connection.db s is Some _
     then Connection.Closed ::
          connection_log host info "Closed Bear database connection"
     else []) ∧
  ∀ host', Connection.closeDatabase host' s1 = (Returned tt, s1).
Proof.
  unfold Connection.closeDatabase.
  destruct (Connection.db s) as [h|] eqn:Hs; simpl.
  - rewrite connection_log_run. simpl. split_and!; [done| |done].
    by rewrite <- app_assoc.
  - rewrite Hs, app_nil_r. done.
Qed.

(** ** Timestamps *)


(** The two ends of SQLite's range of dates, as Unix times. *)
Example datetime_range_ends :
  unix_seconds (-4713) 11 24 12 0 0 = -210866760000 ∧
  unix_seconds 9999 12 31 23 59 59 = 253402300799.
Proof. split; reflexivity. Qed.

Lemma year_in_datetime_range y m d hh mm ss :
  1 ≤ m ≤ 12 → 1 ≤ d ≤ days_in_month y m →
  0 ≤ hh < 24 → 0 ≤ mm < 60 → 0 ≤ ss < 60 →
  datetime_range (unix_seconds y m d hh mm ss) → -4713 ≤ y ≤ 9999.
Proof.
  intros Hm Hd Hhh Hmm Hss. unfold datetime_range, unix_seconds, days_from_civil.
  assert (1 ≤ d ≤ 31) as Hd'.
  { unfold days_in_month in Hd.
    repeat match type of Hd with context [if ?b then _ else _] =>
             destruct b end; lia. }
  clear Hd. cbv zeta.
  destruct (Z.leb_spec m 2), (Z.ltb_spec 2 m); try lia;
    intros Hrange; Z.div_mod_to_equations; lia.
Qed.

Lemma datetime_reads_core_data_time V :
  (datetime_range (V + 978307200) →
   ∃ text, datetime_unixepoch (V + 978307200) = Some text ∧
           reads_core_data_time text V) ∧
  (¬ datetime_range (V + 978307200) →
   datetime_unixepoch (V + 978307200) = None).
Proof.
  unfold datetime_unixepoch.
  pose proof (civil_time_is_unix_time (V + 978307200)) as Hcivil.
  destruct (civil_from_days _) as [[y m] d].
  destruct Hcivil as (Hunix & Hm & Hd & Hhh & Hmm & Hss).
  split; intros Hrange.
  - pose proof Hrange as [Hlo Hhi].
    apply Z.leb_le in Hlo, Hhi. rewrite Hlo, Hhi. simpl.
    eexists. split; [reflexivity|].
    eexists y, m, d, _, _, _. split; [reflexivity|].
    rewrite <- Hunix in Hrange.
    pose proof (year_in_datetime_range _ _ _ _ _ _ Hm Hd Hhh Hmm Hss Hrange).
    split_and!; try lia. rewrite Hunix.
    change (unix_seconds 2001 1 1 0 0 0) with 978307200. lia.
  - destruct (Z.leb_spec (-210866760000) (V + 978307200)); [|done].
    destruct (Z.leb_spec (V + 978307200) 253402300799); [|done].
    destruct Hrange. unfold datetime_range. lia.
Qed.



(** What the store holds for the last second of the year 9999 and for
    the second after it. *)
Example datetime_last_second :
  datetime_unixepoch (252423993599 + CORE_DATA_EPOCH_OFFSET) =
    Some "9999-12-31 23:59:59" ∧
  datetime_unixepoch (252423993600 + CORE_DATA_EPOCH_OFFSET) = None ∧
  datetime_unixepoch (-63145526401 + CORE_DATA_EPOCH_OFFSET) =
    Some "-0001-12-31 23:59:59".
Proof. split_and!; reflexivity. Qed.
